(** * The Effect library: effect values, the box, and the perform engine

    A shallow embedding of [effect/__init__.py] and [effect/twisted.py].

    - Part 1 gives the Python values the engine manipulates.
    - Part 2 is a small state-and-exception monad in which the engine's
      functions are written the way the source writes them: one [frame] per
      Python function call, [bounce] for [bouncer.bounce], [try_except] for
      [try: ... except:].
    - Part 3 is the engine: [dispatch_method], [default_dispatcher], [_Box],
      [_guard], [_run_callbacks], [_perform], [perform], and the Twisted
      dispatcher. The trampoline it runs on is not among the sources and
      follows its description.
    - Part 4 is the object store on which [Effect.on] and its relatives
      allocate, and the same operations on values.
    - Part 5 defines the vocabulary of the statements.
    - Part 6 is the rest of the library: [synchronous_performer] and
      [_iter_conses].
    - The lemmas and the theorems follow. *)

From Stdlib Require Import ZArith.
From stdpp Require Import gmap strings list.

Set Default Proof Using "Type".

(** ** Part 1: values *)

(** A continuation is a Python function object; the engine only compares it
    with [None] and calls it, so it is represented by its identity. *)
Definition callback := nat.

(** One callback-chain entry: the tuple [(success, error)]; [None] is
    Python's [None]. *)
Definition entry := (option callback * option callback)%type.

(** [type(x)] for objects built by the [Effect] constructor or by the
    constructor of a class derived from it. *)
Inductive klass :=
| Effect_class
| Derived_class (name : string).

Inductive value : Type :=
| VNone
| VInt (n : Z)
| VStr (s : string)
| VExcInfo (e : exn)               (* sys.exc_info() of the exception e *)
| VFailureFields (e : exn)         (* (f.value, f.type, f.tb) of a Failure f *)
| VInstance (k : klass) (e : effect) (* an instance of Effect or of a subclass *)
| VDeferred (d : deferred)
with exn : Type :=
| NoEffectHandlerError (i : intent)
| TypeError (msg : string)
| Exception (name : string)
with effect : Type :=
| Effect_with (i : intent) (cbs : list entry)
with intent : Type :=
| Opaque (name : string)
| Performable (name : string) (calls : list box_call) (fin : completion)
| ParallelEffects (effects : list effect)
with box_call : Type :=
| Succeed (v : value)
| Fail (v : value)
with completion : Type :=
| Returns (v : value)
| Raises (e : exn)
with deferred : Type :=
| Pending
| Fired (v : value)
| Errbacked (e : exn).

(** [effect.intent] and [effect.callbacks]. *)
Definition intent_of (e : effect) : intent :=
  match e with Effect_with i _ => i end.

Definition callbacks (e : effect) : list entry :=
  match e with Effect_with _ cbs => cbs end.

(** [Effect(intent)]: [__init__] stores the intent and an empty chain. *)
Definition Effect (i : intent) : effect := Effect_with i [].

(** [hasattr(intent, 'perform_effect')]. An [Opaque] intent is an object
    without that method; [ParallelEffects] defines [__init__], [__repr__]
    and [serialize] only. *)
Definition has_perform_effect (i : intent) : bool :=
  match i with
  | Performable _ _ _ => true
  | Opaque _ | ParallelEffects _ => false
  end.

(** [type(value) is Effect]. *)
Definition type_is_Effect (v : value) : bool :=
  match v with
  | VInstance Effect_class _ => true
  | _ => false
  end.

(** [type(intent) is ParallelEffects]. *)
Definition type_is_ParallelEffects (i : intent) : bool :=
  match i with
  | ParallelEffects _ => true
  | _ => false
  end.

(** The [(is_error, value)] tuple passed along the chain. *)
Definition result := (bool * value)%type.

(** The [(function, args)] pairs handed to [bouncer.bounce]. The engine
    bounces three callables: [_perform], [_run_callbacks], and the
    [lambda bouncer, result: _run_callbacks(bouncer, effect.callbacks, result)]
    stored in a box, a closure over [effect]. *)
Inductive work :=
| Work_perform (e : effect)
| Work_run_callbacks (chain : list entry) (r : result)
| Work_lambda (e : effect) (r : result).

(** ** Part 2: the engine monad *)

(** What a run can observe and change: the bounce requests received by the
    current bouncer, the continuations called so far with their argument,
    the steps the trampoline has executed, and the current and the highest
    number of nested Python calls. *)
Record machine := Machine {
  scheduled : list work;
  invoked : list (callback * value);
  history : list work;
  depth : nat;
  peak : nat
}.

Definition initial : machine := Machine [] [] [] 0 0.

Inductive outcome (A : Type) :=
| Normal (a : A)
| Raised (e : exn).
Arguments Normal {A} a.
Arguments Raised {A} e.

Definition M (A : Type) : Type := machine -> outcome A * machine.

Definition ret {A} (a : A) : M A := fun s => (Normal a, s).

Definition bind {A B} (m : M A) (k : A -> M B) : M B :=
  fun s =>
    match m s with
    | (Normal a, s') => k a s'
    | (Raised e, s') => (Raised e, s')
    end.

Definition raise {A} (e : exn) : M A := fun s => (Raised e, s).

(** [try: body / except: handler(exc) / else: orelse(result)]. *)
Definition try_except {A B} (body : M A) (handler : exn -> M B)
    (orelse : A -> M B) : M B :=
  fun s =>
    match body s with
    | (Normal a, s') => orelse a s'
    | (Raised e, s') => handler e s'
    end.

Declare Scope engine_scope.
Delimit Scope engine_scope with engine.
Notation "x <- m ;; k" := (bind m (fun x => k))
  (at level 100, m at next level, right associativity) : engine_scope.
Notation "m ;;; k" := (bind m (fun _ => k))
  (at level 100, right associativity) : engine_scope.
Local Open Scope engine_scope.

(** A Python call: one more frame while the body runs, popped on return and
    on an exception alike. *)
Definition enter (s : machine) : machine :=
  Machine (scheduled s) (invoked s) (history s)
          (S (depth s)) (Nat.max (peak s) (S (depth s))).

Definition leave (d : nat) (s : machine) : machine :=
  Machine (scheduled s) (invoked s) (history s) d (peak s).

Definition frame {A} (body : M A) : M A :=
  fun s => let '(r, s') := body (enter s) in (r, leave (depth s) s').

Fixpoint for_each {A} (f : A -> M unit) (l : list A) : M unit :=
  match l with
  | [] => ret tt
  | x :: l' => f x ;;; for_each f l'
  end.

(** ** Part 3: the engine *)

(** The box handed to a dispatcher. Its [_bouncer] is the bouncer of the
    step that created it, which is the bouncer the machine currently holds:
    the model covers dispatchers that use the box during that step (or not
    at all). [_more] takes the result and gives the call to schedule. *)
Record _Box := Box { _more : result -> work }.

(** The two dispatcher functions of the library, as objects passed around. *)
Inductive dispatcher_ref :=
| Default_dispatcher
| Twisted_dispatcher.

(** Positional arguments of a call to [dispatch_method]. *)
Inductive pyarg :=
| ArgIntent (i : intent)
| ArgDispatcher (d : dispatcher_ref)
| ArgBox (b : _Box).

Definition dispatcher := intent -> _Box -> M value.

(** Modelled from the spec: [bouncer.bounce(func, *args)] belongs to
    [continuation.py], which the engine imports but which is not among the
    sources. Section 4.1: bounce requests the next step, which the
    trampoline runs from its loop. The request is recorded on the bouncer;
    the trampoline reads it when the step returns. *)
Definition bounce (w : work) : M unit :=
  frame (fun s =>
    (Normal tt,
     Machine (scheduled s ++ [w]) (invoked s) (history s) (depth s) (peak s))).

(** [_Box.succeed] and [_Box.fail]. *)
Definition succeed (box : _Box) (result : value) : M unit :=
  frame (bounce (_more box (false, result))).

Definition fail (box : _Box) (result : value) : M unit :=
  frame (bounce (_more box (true, result))).

Definition apply_box_call (box : _Box) (c : box_call) : M unit :=
  match c with
  | Succeed v => succeed box v
  | Fail v => fail box v
  end.

(** [intent.perform_effect(dispatcher, box)] for a [Performable] intent: the
    method makes its calls on the box, then returns or raises. *)
Definition perform_effect (calls : list box_call) (fin : completion)
    (box : _Box) : M value :=
  frame (for_each (apply_box_call box) calls ;;;
         match fin with
         | Returns v => ret v
         | Raises e => raise e
         end).

(** [def dispatch_method(intent, dispatcher, box)]: three required
    positional parameters. Python binds the arguments before the body runs
    and raises [TypeError] when their number is not three. The body passes
    [default_dispatcher], not its [dispatcher] parameter, to the method. *)
Definition dispatch_method (args : list pyarg) : M value :=
  match args with
  | [ArgIntent intent; ArgDispatcher _; ArgBox box] =>
      frame (match intent with
             | Performable _ calls fin => perform_effect calls fin box
             | Opaque _ | ParallelEffects _ =>
                 raise (NoEffectHandlerError intent)
             end)
  | _ => raise (TypeError "dispatch_method() takes exactly 3 arguments")
  end.

Definition default_dispatcher : dispatcher :=
  fun intent box =>
    frame (dispatch_method
             [ArgIntent intent; ArgDispatcher Default_dispatcher; ArgBox box]).

(** [Effect.with_callbacks(intent, callbacks)]: the class method builds
    [klass(intent)] and then sets its [callbacks]. *)
Definition Effect_init (i : intent) : M effect :=
  frame (ret (Effect i)).

Definition with_callbacks (i : intent) (cbs : list entry) : M effect :=
  frame (eff <- Effect_init i ;;
         ret (Effect_with (intent_of eff) cbs)).

(** [chain[0][is_error]]: index 0 of the tuple for [False], 1 for [True]. *)
Definition select (e : entry) (is_error : bool) : option callback :=
  if is_error then snd e else fst e.

Section Engine.

(** The Python functions behind the callback references: what each one
    does with its argument, returning a value or raising. *)
Variable call : callback -> value -> completion.

(** [perform_parallel(parallel, twisted_dispatcher, box)]: it performs every
    child with [effect.twisted.perform] under Twisted's [maybeDeferred],
    gathers the Deferreds with [gatherResults] and passes the outcome to
    [deferred_to_box]. What that does on the machine (the continuations of
    the children it calls, the frames it uses, what it makes of the box)
    depends on Twisted and is not described here: the call is a parameter,
    any computation on the machine. *)
Variable perform_parallel : list effect -> _Box -> M unit.

(** [cb(value)]. *)
Definition invoke (cb : callback) (v : value) : M value :=
  frame (fun s =>
    let s' := Machine (scheduled s) (invoked s ++ [(cb, v)]) (history s)
                      (depth s) (peak s) in
    match call cb v with
    | Returns w => (Normal w, s')
    | Raises e => (Raised e, s')
    end).

(** [_guard(f, value)]. *)
Definition _guard (f : callback) (v : value) : M result :=
  frame (try_except (invoke f v)
           (fun e => ret (true, VExcInfo e))
           (fun w => ret (false, w))).

(** [_run_callbacks(bouncer, chain, result)]. *)
Definition _run_callbacks (chain : list entry) (result : result) : M unit :=
  frame (
    let '(is_error, value) := result in
    match value with
    | VInstance Effect_class inner =>
        eff <- with_callbacks (intent_of inner) (callbacks inner ++ chain) ;;
        bounce (Work_perform eff)
    | _ =>
        match chain with
        | [] => ret tt
        | head :: rest =>
            result' <- match select head is_error with
                       | Some cb => _guard cb value
                       | None => ret result
                       end ;;
            bounce (Work_run_callbacks rest result')
        end
    end).

Section Perform.

Variable the_dispatcher : dispatcher.

(** [_perform(bouncer, effect)]. *)
Definition _perform (effect : effect) : M unit :=
  frame (box <- frame (ret (Box (Work_lambda effect))) ;;
         the_dispatcher (intent_of effect) box ;;;
         ret tt).

(** Running one scheduled call: [f(bouncer, *args)]. *)
Definition step (w : work) : M unit :=
  match w with
  | Work_perform e => _perform e
  | Work_run_callbacks chain r => _run_callbacks chain r
  | Work_lambda e r => frame (_run_callbacks (callbacks e) r)
  end.

(** How the loop ended: no further bounce was scheduled; or the model's
    fuel ran out first; or a step bounced more than once, which the spec
    (section 3, Box) puts outside the contract and leaves undescribed. *)
Inductive verdict :=
| Finished
| Out_of_fuel
| Misused.

(** Modelled from the spec: [trampoline] of [continuation.py], which the
    engine imports but which is not among the sources. Section 4.1: the
    trampoline executes the entry step with its arguments; whenever a step
    requests the next one through bounce, that call is run from an
    iterative loop, not by a nested call; the loop terminates when no
    further bounce is scheduled. Each step is called with a bouncer of its
    own as first argument, as the engine's step functions expect. An
    exception raised by a step is not caught: the spec describes no
    handler. *)
Fixpoint trampoline_loop (fuel : nat) (w : work) : M verdict :=
  match fuel with
  | 0 => ret Out_of_fuel
  | S fuel' =>
      fun s =>
        let s0 := Machine [] (invoked s) (history s ++ [w])
                          (depth s) (peak s) in
        match step w s0 with
        | (Raised e, s1) => (Raised e, s1)
        | (Normal _, s1) =>
            match scheduled s1 with
            | [] => (Normal Finished, s1)
            | [w'] => trampoline_loop fuel' w' s1
            | _ => (Normal Misused, s1)
            end
        end
  end.

(** Modelled from the spec: the call [trampoline(f, *args)], one frame
    around the loop. *)
Definition trampoline (fuel : nat) (w : work) : M verdict :=
  frame (trampoline_loop fuel w).

(** [perform(effect, dispatcher)]; it returns [None]. *)
Definition perform (fuel : nat) (effect : effect) : M verdict :=
  frame (trampoline fuel (Work_perform effect)).

End Perform.

(** *** effect/twisted.py *)

(** [deferred_to_box(d, box)]: [d.addCallbacks(box.succeed, lambda f:
    box.fail((f.value, f.type, f.tb)))]. A Deferred that has fired runs
    the matching callback at once; a pending one runs nothing now. *)
Definition deferred_to_box (d : deferred) (box : _Box) : M unit :=
  frame (match d with
         | Pending => ret tt
         | Fired v => succeed box v
         | Errbacked e => frame (fail box (VFailureFields e))
         end).

(** [twisted_dispatcher(intent, box)]. Its call of [dispatch_method]
    passes two arguments: [intent] and [twisted_dispatcher]. *)
Definition twisted_dispatcher : dispatcher :=
  fun intent box =>
    frame (
      match intent with
      | ParallelEffects effects =>
          perform_parallel effects box ;;; ret VNone
      | _ =>
          try_except
            (dispatch_method
               [ArgIntent intent; ArgDispatcher Twisted_dispatcher])
            (fun e => fail box (VExcInfo e) ;;; ret VNone)
            (fun result =>
               match result with
               | VDeferred d => deferred_to_box d box ;;; ret VNone
               | _ => succeed box result ;;; ret VNone
               end)
      end).

End Engine.

(** ** Part 4: Effect objects in the store *)

(** [Effect.on] and its relatives build new objects. To say that they leave
    the old ones alone, objects live in a store: an [Effect] instance holds
    its intent and a reference to its [callbacks] list. *)
Module Store.

Definition loc := positive.

Inductive object :=
| List_object (items : list entry)
| Effect_object (k : klass) (i : intent) (cbs : loc).

(** A store operation returns a value and the new store, or [None] where
    Python raises ([AttributeError] on an object of the wrong type, or a
    dangling reference, which Python cannot have). *)
Definition St (A : Type) : Type :=
  gmap loc object -> option (A * gmap loc object).

Definition pure {A} (a : A) : St A := fun h => Some (a, h).

Definition and_then {A B} (m : St A) (f : A -> St B) : St B :=
  fun h =>
    match m h with
    | Some (a, h') => f a h'
    | None => None
    end.

Notation "x <~ m ;; k" := (and_then m (fun x => k))
  (at level 100, m at next level, right associativity).

Definition alloc (o : object) : St loc :=
  fun h => let l := fresh (dom h) in Some (l, <[l := o]> h).

(** [self.intent] and [self.callbacks]. *)
Definition get_intent (self : loc) : St intent :=
  fun h =>
    match h !! self with
    | Some (Effect_object _ i _) => Some (i, h)
    | _ => None
    end.

Definition get_callbacks (self : loc) : St loc :=
  fun h =>
    match h !! self with
    | Some (Effect_object _ _ cbs) => Some (cbs, h)
    | _ => None
    end.

(** [eff.callbacks = callbacks]. *)
Definition set_callbacks (eff : loc) (cbs : loc) : St unit :=
  fun h =>
    match h !! eff with
    | Some (Effect_object k i _) => Some (tt, <[eff := Effect_object k i cbs]> h)
    | _ => None
    end.

(** [a + b] on two lists: a new list object. *)
Definition list_add (a b : loc) : St loc :=
  fun h =>
    match h !! a, h !! b with
    | Some (List_object xs), Some (List_object ys) =>
        alloc (List_object (xs ++ ys)) h
    | _, _ => None
    end.

(** [klass(intent)]: [__init__] sets [self.intent = intent] and
    [self.callbacks = []]. *)
Definition new_Effect (k : klass) (i : intent) : St loc :=
  cbs <~ alloc (List_object []) ;;
  alloc (Effect_object k i cbs).

(** [with_callbacks(klass, intent, callbacks)]. *)
Definition with_callbacks (k : klass) (i : intent) (cbs : loc) : St loc :=
  eff <~ new_Effect k i ;;
  _ <~ set_callbacks eff cbs ;;
  pure eff.

(** [self.on(success, error)]:
    [Effect.with_callbacks(self.intent, self.callbacks + [(success, error)])]. *)
Definition on (self : loc) (success error : option callback) : St loc :=
  i <~ get_intent self ;;
  cbs <~ get_callbacks self ;;
  one <~ alloc (List_object [(success, error)]) ;;
  extended <~ list_add cbs one ;;
  with_callbacks Effect_class i extended.

Definition on_success (self : loc) (callback : option callback) : St loc :=
  on self callback None.

Definition on_error (self : loc) (callback : option callback) : St loc :=
  on self None callback.

Definition after (self : loc) (callback : option callback) : St loc :=
  on self callback callback.

(** The four chain-extension operations and the entry each one attaches. *)
Inductive extension :=
| By_on (success error : option callback)
| By_on_success (callback : option callback)
| By_on_error (callback : option callback)
| By_after (callback : option callback).

Definition attached (x : extension) : entry :=
  match x with
  | By_on success error => (success, error)
  | By_on_success callback => (callback, None)
  | By_on_error callback => (None, callback)
  | By_after callback => (callback, callback)
  end.

Definition extend (self : loc) (x : extension) : St loc :=
  match x with
  | By_on success error => on self success error
  | By_on_success callback => on_success self callback
  | By_on_error callback => on_error self callback
  | By_after callback => after self callback
  end.

(** The [Effect] an object stands for: its class, its intent and the items
    of its [callbacks] list. *)
Definition read (h : gmap loc object) (l : loc) : option (klass * effect) :=
  match h !! l with
  | Some (Effect_object k i cbs) =>
      match h !! cbs with
      | Some (List_object items) => Some (k, Effect_with i items)
      | _ => None
      end
  | _ => None
  end.

(** [self.on(...).on(...)...]: a run of chain extensions, each applied to the
    Effect the one before returned. *)
Fixpoint extend_all (self : loc) (xs : list extension) : St loc :=
  match xs with
  | [] => pure self
  | x :: xs' => r <~ extend self x ;; extend_all r xs'
  end.

End Store.

(** The same operations on [Effect] values, for building the effects that
    the engine is run on. *)
Definition on (self : effect) (success error : option callback) : effect :=
  Effect_with (intent_of self) (callbacks self ++ [(success, error)]).

Definition on_success (self : effect) (callback : option callback) : effect :=
  on self callback None.

Definition on_error (self : effect) (callback : option callback) : effect :=
  on self None callback.

Definition after (self : effect) (callback : option callback) : effect :=
  on self callback callback.

(** [parallel(effects)]. *)
Definition parallel (effects : list effect) : effect :=
  Effect (ParallelEffects effects).

(** ** Part 5: what the theorems speak about *)

(** ** How a computation leaves the machine *)

(** Every engine function appends bounce requests and continuation calls,
    returns to the depth it was called at, and raises the peak to the
    deepest frame it entered ([k] frames above the caller, [0] for none). *)
Definition reach (d k : nat) : nat :=
  match k with
  | 0 => 0
  | S _ => d + k
  end.

Definition after_ (s : machine) (sch : list work)
    (inv : list (callback * value)) (k : nat) : machine :=
  Machine (scheduled s ++ sch) (invoked s ++ inv) (history s)
          (depth s) (Nat.max (peak s) (reach (depth s) k)).

Definition runs {A} (m : M A) (r : outcome A) (sch : list work)
    (inv : list (callback * value)) (k : nat) : Prop :=
  forall s, m s = (r, after_ s sch inv k).

(** The pair [_guard] returns for [f(value)]. *)
Definition guarded (call : callback -> value -> completion) (f : callback)
    (v : value) : result :=
  match call f v with
  | Returns w => (false, w)
  | Raises e => (true, VExcInfo e)
  end.

(** What the caller of [perform] can observe of a run: how the call ended
    and which continuations were called, with which argument. *)
Definition observable {A} (r : outcome A * machine)
    : outcome A * list (callback * value) :=
  (fst r, invoked (snd r)).

(** The chain and result a step walks, when it is a [_run_callbacks] step
    (scheduled directly or through a box). *)
Definition walked (w : work) : option (list entry * result) :=
  match w with
  | Work_perform _ => None
  | Work_run_callbacks chain r => Some (chain, r)
  | Work_lambda e r => Some (callbacks e, r)
  end.

(** The result that was left when the last executed step found the chain
    exhausted. *)
Definition terminal (s : machine) : option result :=
  match last (history s) with
  | Some w =>
      match walked w with
      | Some ([], r) => Some r
      | _ => None
      end
  | None => None
  end.

(** A dispatcher that resolves the box of intent [i] once, during the call,
    with result [r], and returns. *)
Definition resolves (d : dispatcher) (i : intent) (r : result) : Prop :=
  forall box, exists v k, runs (d i box) (Normal v) [_more box r] [] k.

(** One step, whatever number of frames it uses. *)
Definition moves (call : callback -> value -> completion) (d : dispatcher)
    (w : work) (res : outcome unit) (sch : list work)
    (inv : list (callback * value)) : Prop :=
  exists k, runs (step call d w) res sch inv k.

(** An entry with both continuations (as [after] and a two-sided [on]
    attach), the continuations of an entry, and continuations that never
    return an [Effect]. *)
Definition total (e : entry) : Prop := is_Some (fst e) /\ is_Some (snd e).

Definition fires (e : entry) (c : callback) : Prop :=
  fst e = Some c \/ snd e = Some c.

Definition plain (call : callback -> value -> completion) (c : callback)
    : Prop :=
  forall v w, call c v = Returns w -> type_is_Effect w = false.

Definition plain_entry (call : callback -> value -> completion) (e : entry)
    : Prop :=
  forall c, fires e c -> plain call c.

(** A computation that returns to the depth it was called at and never has
    more than [k] frames above its caller, however it ends. *)
Definition bounded {A} (m : M A) (k : nat) : Prop :=
  forall s, depth (snd (m s)) = depth s
            /\ peak (snd (m s)) <= Nat.max (peak s) (depth s + k).


(** Following the specification (section 4.4, rule 2), not the source: the
    walk of a chain from a result, entry by entry in attachment order. For
    each entry the continuation matching the tag is selected (the error one
    for a failure, the success one for a success); if absent the result
    passes unchanged; if present it is called with the value, and what it
    returns or raises is the result for the next entry. The walk gives the
    calls made and the result left; it gives [None] when a value of type
    exactly [Effect] comes up, where rule 3 (splicing) takes over. *)
Fixpoint spec_walk (call : callback -> value -> completion)
    (chain : list entry) (r : result)
    : option (list (callback * value) * result) :=
  if type_is_Effect (snd r) then None
  else
    match chain with
    | [] => Some ([], r)
    | e :: rest =>
        match (if fst r then snd e else fst e) with
        | None => spec_walk call rest r
        | Some c =>
            match spec_walk call rest (guarded call c (snd r)) with
            | Some (tr, r') => Some ((c, snd r) :: tr, r')
            | None => None
            end
        end
    end.

(** ** Part 6: the rest of the library *)

(** [synchronous_performer(func)]: the [perform_effect] it returns runs
    [box.succeed(func(self, dispatcher))] inside [try], and
    [box.fail(sys.exc_info())] in the bare [except]. [func] is given by what
    its call does: return a value or raise. *)
Definition synchronous_performer (func : completion) (box : _Box) : M value :=
  frame (try_except
           (v <- frame (match func with
                        | Returns v => ret v
                        | Raises e => raise e
                        end) ;;
            succeed box v)
           (fun e => fail box (VExcInfo e))
           (fun _ => ret tt) ;;;
         ret VNone).

(** [_iter_conses(seq)]: [for i in range(len(seq)): yield seq[i], seq[i + 1:]].
    The values are listed in the order they are yielded; [None] stands for
    the [IndexError] of [seq[i]]. *)
Definition _iter_conses {A} (seq_ : list A) : option (list (A * list A)) :=
  mapM (fun i => match seq_ !! i with
                 | Some x => Some (x, drop (S i) seq_)
                 | None => None
                 end)
       (seq 0 (length seq_)).

(** The result a box call puts on the chain. *)
Definition delivered (c : box_call) : result :=
  match c with
  | Succeed v => (false, v)
  | Fail v => (true, v)
  end.

(** A dispatcher whose use of the box does not depend on what the box will
    schedule: for each intent it makes the same calls on any box and ends
    the same way, and it calls no continuation itself. *)
Definition uniform (d : dispatcher) : Prop :=
  forall i, exists res rs, forall box,
    exists k, runs (d i box) res (map (_more box) rs) [] k.

(** The scheduled call [w] when the Effect being performed has one more
    entry at the end of its chain. *)
Definition with_last_entry (success error : option callback) (w : work)
    : work :=
  match w with
  | Work_perform e => Work_perform (on e success error)
  | Work_run_callbacks chain r =>
      Work_run_callbacks (chain ++ [(success, error)]) r
  | Work_lambda e r => Work_lambda (on e success error) r
  end.

(** The value a run of success continuations leaves, and the calls it
    makes, when each is applied to what the one before returned. A
    continuation that raises ends the run. *)
Fixpoint threaded (call : callback -> value -> completion)
    (cs : list callback) (v : value) : value :=
  match cs with
  | [] => v
  | c :: cs' =>
      match call c v with
      | Returns w => threaded call cs' w
      | Raises _ => v
      end
  end.

Fixpoint threaded_calls (call : callback -> value -> completion)
    (cs : list callback) (v : value) : list (callback * value) :=
  match cs with
  | [] => []
  | c :: cs' =>
      (c, v) :: match call c v with
                | Returns w => threaded_calls call cs' w
                | Raises _ => []
                end
  end.

(** * Lemmas *)


Lemma machine_eq (s t : machine) :
  scheduled s = scheduled t -> invoked s = invoked t ->
  history s = history t -> depth s = depth t -> peak s = peak t -> s = t.
Proof. destruct s, t; simpl; intros; subst; reflexivity. Qed.

Lemma reach_max d k k' :
  Nat.max (reach d k) (reach d k') = reach d (Nat.max k k').
Proof. destruct k, k'; simpl; lia. Qed.

Lemma after_after s sch inv k sch' inv' k' :
  after_ (after_ s sch inv k) sch' inv' k'
  = after_ s (sch ++ sch') (inv ++ inv') (Nat.max k k').
Proof.
  apply machine_eq; simpl; rewrite <- ?app_assoc; try reflexivity.
  rewrite <- reach_max. lia.
Qed.

Lemma after_nothing s : after_ s [] [] 0 = s.
Proof. apply machine_eq; simpl; rewrite ?app_nil_r; try reflexivity; lia. Qed.

Lemma leave_enter s sch inv k :
  leave (depth s) (after_ (enter s) sch inv k) = after_ s sch inv (S k).
Proof.
  apply machine_eq; simpl; try reflexivity.
  destruct k; simpl; lia.
Qed.

Lemma runs_ret {A} (a : A) : runs (ret a) (Normal a) [] [] 0.
Proof. intros s. unfold ret. by rewrite after_nothing. Qed.

Lemma runs_raise {A} e : runs (@raise A e) (Raised e) [] [] 0.
Proof. intros s. unfold raise. by rewrite after_nothing. Qed.

Lemma runs_bind {A B} (m : M A) (f : A -> M B) a r sch inv k sch' inv' k' :
  runs m (Normal a) sch inv k ->
  runs (f a) r sch' inv' k' ->
  runs (bind m f) r (sch ++ sch') (inv ++ inv') (Nat.max k k').
Proof.
  intros Hm Hf s. unfold bind. rewrite Hm, Hf. by rewrite after_after.
Qed.

Lemma runs_bind_raised {A B} (m : M A) (f : A -> M B) e sch inv k :
  runs m (Raised e) sch inv k ->
  runs (bind m f) (Raised e) sch inv k.
Proof. intros Hm s. unfold bind. by rewrite Hm. Qed.

Lemma runs_frame {A} (m : M A) r sch inv k :
  runs m r sch inv k -> runs (frame m) r sch inv (S k).
Proof.
  intros Hm s. unfold frame. rewrite Hm. by rewrite leave_enter.
Qed.

Lemma runs_try_normal {A B} (m : M A) (h : exn -> M B) (o : A -> M B)
    a r sch inv k sch' inv' k' :
  runs m (Normal a) sch inv k ->
  runs (o a) r sch' inv' k' ->
  runs (try_except m h o) r (sch ++ sch') (inv ++ inv') (Nat.max k k').
Proof.
  intros Hm Ho s. unfold try_except. rewrite Hm, Ho. by rewrite after_after.
Qed.

Lemma runs_try_raised {A B} (m : M A) (h : exn -> M B) (o : A -> M B)
    e r sch inv k sch' inv' k' :
  runs m (Raised e) sch inv k ->
  runs (h e) r sch' inv' k' ->
  runs (try_except m h o) r (sch ++ sch') (inv ++ inv') (Nat.max k k').
Proof.
  intros Hm Hh s. unfold try_except. rewrite Hm, Hh. by rewrite after_after.
Qed.

Lemma runs_bounce w : runs (bounce w) (Normal tt) [w] [] 1.
Proof.
  intros s. unfold bounce, frame. simpl. f_equal.
  apply machine_eq; simpl; rewrite ?app_nil_r; try reflexivity. lia.
Qed.

Lemma runs_succeed box v :
  runs (succeed box v) (Normal tt) [_more box (false, v)] [] 2.
Proof. apply runs_frame, runs_bounce. Qed.

Lemma runs_fail box v :
  runs (fail box v) (Normal tt) [_more box (true, v)] [] 2.
Proof. apply runs_frame, runs_bounce. Qed.

Lemma runs_with_callbacks i cbs :
  runs (with_callbacks i cbs) (Normal (Effect_with i cbs)) [] [] 2.
Proof.
  unfold with_callbacks. apply runs_frame.
  change 1 with (Nat.max 1 0). change (@nil work) with (@nil work ++ []).
  change (@nil (callback * value)) with (@nil (callback * value) ++ []).
  eapply runs_bind.
  - apply runs_frame, runs_ret.
  - simpl. apply runs_ret.
Qed.

Lemma runs_eq {A} (m : M A) r sch inv k sch' inv' k' :
  runs m r sch inv k -> sch = sch' -> inv = inv' -> k = k' ->
  runs m r sch' inv' k'.
Proof. by intros H <- <- <-. Qed.

(** [derive_runs] composes the rules above along the structure of the
    computation and leaves the bookkeeping (lists and frame counts) to
    evaluation. *)
Ltac derive_runs_step :=
  first
    [ apply runs_ret
    | apply runs_raise
    | apply runs_bounce
    | apply runs_succeed
    | apply runs_fail
    | apply runs_with_callbacks
    | apply runs_frame
    | eapply runs_bind ].

Ltac derive_runs :=
  eapply runs_eq; [ repeat (derive_runs_step; simpl) | reflexivity .. ].

(** ** Facts about the engine's functions *)

Section EngineFacts.

Variable call : callback -> value -> completion.


Lemma runs_guard f v :
  runs (_guard call f v) (Normal (guarded call f v)) [] [(f, v)] 2.
Proof.
  intros s. unfold _guard, frame, try_except, invoke, frame, guarded, ret.
  simpl. destruct (call f v); simpl; f_equal;
    apply machine_eq; simpl; rewrite ?app_nil_r; try reflexivity; lia.
Qed.

Lemma runs_run_callbacks_splice chain is_error inner :
  runs (_run_callbacks call chain (is_error, VInstance Effect_class inner))
       (Normal tt)
       [Work_perform
          (Effect_with (intent_of inner) (callbacks inner ++ chain))]
       [] 3.
Proof. unfold _run_callbacks. derive_runs. Qed.

Lemma runs_run_callbacks_end is_error v :
  type_is_Effect v = false ->
  runs (_run_callbacks call [] (is_error, v)) (Normal tt) [] [] 1.
Proof.
  intros Hv. unfold _run_callbacks.
  destruct v as [| | | | |[]|]; try discriminate Hv; derive_runs.
Qed.

Lemma runs_run_callbacks_skip head rest is_error v :
  type_is_Effect v = false ->
  select head is_error = None ->
  runs (_run_callbacks call (head :: rest) (is_error, v)) (Normal tt)
       [Work_run_callbacks rest (is_error, v)] [] 2.
Proof.
  intros Hv Hsel. unfold _run_callbacks. rewrite Hsel.
  destruct v as [| | | | |[]|]; try discriminate Hv; derive_runs.
Qed.

Lemma runs_run_callbacks_call head rest is_error v cb :
  type_is_Effect v = false ->
  select head is_error = Some cb ->
  runs (_run_callbacks call (head :: rest) (is_error, v)) (Normal tt)
       [Work_run_callbacks rest (guarded call cb v)] [(cb, v)] 3.
Proof.
  intros Hv Hsel. unfold _run_callbacks. rewrite Hsel.
  destruct v as [| | | | |[]|]; try discriminate Hv;
    (eapply runs_eq;
     [ apply runs_frame; eapply runs_bind;
       [ apply runs_guard | apply runs_bounce ]
     | reflexivity .. ]).
Qed.

End EngineFacts.

(** ** Facts about the trampoline loop *)


Section LoopFacts.

Variable call : callback -> value -> completion.
Variable d : dispatcher.


Lemma moves_lambda e r res sch inv :
  moves call d (Work_run_callbacks (callbacks e) r) res sch inv ->
  moves call d (Work_lambda e r) res sch inv.
Proof. intros [k Hk]. exists (S k). simpl. by apply runs_frame. Qed.

Lemma moves_walked w chain r res sch inv :
  walked w = Some (chain, r) ->
  moves call d (Work_run_callbacks chain r) res sch inv ->
  moves call d w res sch inv.
Proof.
  destruct w as [e | chain' r' | e r']; simpl; intros Hw H; simplify_eq.
  - done.
  - by apply moves_lambda.
Qed.

Lemma moves_perform e r :
  resolves d (intent_of e) r ->
  moves call d (Work_perform e) (Normal tt) [Work_lambda e r] [].
Proof.
  intros Hres. destruct (Hres (Box (Work_lambda e))) as (v & k & Hk).
  eexists. simpl. unfold _perform.
  eapply runs_eq.
  - apply runs_frame. eapply runs_bind; [ apply runs_frame, runs_ret |].
    eapply runs_bind; [ apply Hk | apply runs_ret ].
  - reflexivity.
  - reflexivity.
  - reflexivity.
Qed.

Lemma loop_next fuel w w' inv s :
  moves call d w (Normal tt) [w'] inv ->
  exists s', trampoline_loop call d (S fuel) w s
             = trampoline_loop call d fuel w' s'
             /\ invoked s' = invoked s ++ inv
             /\ history s' = history s ++ [w].
Proof.
  intros [k Hk]. eexists. simpl. rewrite Hk. simpl. eauto.
Qed.

Lemma loop_finish fuel w inv s :
  moves call d w (Normal tt) [] inv ->
  exists s', trampoline_loop call d (S fuel) w s = (Normal Finished, s')
             /\ invoked s' = invoked s ++ inv
             /\ history s' = history s ++ [w].
Proof.
  intros [k Hk]. eexists. simpl. rewrite Hk. simpl. eauto.
Qed.

Lemma loop_raise fuel w e sch inv s :
  moves call d w (Raised e) sch inv ->
  exists s', trampoline_loop call d (S fuel) w s = (Raised e, s')
             /\ invoked s' = invoked s ++ inv
             /\ history s' = history s ++ [w].
Proof.
  intros [k Hk]. eexists. simpl. rewrite Hk. simpl. eauto.
Qed.

(** [perform] is the loop inside two frames ([perform] and
    [trampoline]); the frames change neither trace. *)
Lemma perform_loop fuel e s :
  exists s0, invoked s0 = invoked s /\ history s0 = history s /\
    forall r s1, trampoline_loop call d fuel (Work_perform e) s0 = (r, s1) ->
      exists s', perform call d fuel e s = (r, s')
                 /\ invoked s' = invoked s1 /\ history s' = history s1.
Proof.
  exists (enter (enter s)). split; [done|]. split; [done|].
  intros r s1 H. unfold perform, trampoline, frame. rewrite H.
  eexists. split; [reflexivity|]. done.
Qed.

(** The four ways a [_run_callbacks] step can go. *)
Lemma moves_splice w chain is_error inner :
  walked w = Some (chain, (is_error, VInstance Effect_class inner)) ->
  moves call d w (Normal tt)
    [Work_perform (Effect_with (intent_of inner) (callbacks inner ++ chain))]
    [].
Proof.
  intros Hw. eapply moves_walked; [done|].
  eexists. apply runs_run_callbacks_splice.
Qed.

Lemma moves_end w is_error v :
  walked w = Some ([], (is_error, v)) ->
  type_is_Effect v = false ->
  moves call d w (Normal tt) [] [].
Proof.
  intros Hw Hv. eapply moves_walked; [done|].
  eexists. by apply runs_run_callbacks_end.
Qed.

Lemma moves_skip w head rest is_error v :
  walked w = Some (head :: rest, (is_error, v)) ->
  type_is_Effect v = false ->
  select head is_error = None ->
  moves call d w (Normal tt) [Work_run_callbacks rest (is_error, v)] [].
Proof.
  intros Hw Hv Hsel. eapply moves_walked; [done|].
  eexists. by apply runs_run_callbacks_skip.
Qed.

Lemma moves_call w head rest is_error v cb :
  walked w = Some (head :: rest, (is_error, v)) ->
  type_is_Effect v = false ->
  select head is_error = Some cb ->
  moves call d w (Normal tt) [Work_run_callbacks rest (guarded call cb v)]
    [(cb, v)].
Proof.
  intros Hw Hv Hsel. eapply moves_walked; [done|].
  eexists. by apply runs_run_callbacks_call.
Qed.

End LoopFacts.

(** ** Facts about the dispatchers *)

Lemma runs_default_no_handler i box :
  has_perform_effect i = false ->
  runs (default_dispatcher i box) (Raised (NoEffectHandlerError i)) [] [] 2.
Proof.
  intros Hi. unfold default_dispatcher, dispatch_method.
  destruct i; try discriminate Hi; derive_runs.
Qed.

Lemma resolves_default_succeed name v w :
  resolves default_dispatcher (Performable name [Succeed v] (Returns w))
    (false, v).
Proof.
  intros box. exists w. eexists.
  unfold default_dispatcher, dispatch_method, perform_effect. simpl.
  derive_runs.
Qed.


Lemma runs_twisted_not_parallel gather i box :
  type_is_ParallelEffects i = false ->
  runs (twisted_dispatcher gather i box) (Normal VNone)
    [_more box
       (true,
        VExcInfo (TypeError "dispatch_method() takes exactly 3 arguments"))]
    [] 3.
Proof.
  intros Hi. unfold twisted_dispatcher, dispatch_method.
  destruct i; try discriminate Hi;
    (eapply runs_eq;
     [ apply runs_frame; eapply runs_try_raised;
       [ apply runs_raise
       | eapply runs_bind; [ apply runs_fail | apply runs_ret ] ]
     | reflexivity .. ]).
Qed.

(** ** Walking a chain in which every entry fires *)


Section WalkFacts.

Variable call : callback -> value -> completion.
Variable d : dispatcher.

Lemma guarded_plain c v :
  plain call c -> type_is_Effect (snd (guarded call c v)) = false.
Proof.
  intros Hc. unfold guarded. destruct (call c v) eqn:E; simpl; eauto.
Qed.

Lemma total_select head is_error :
  total head -> exists cb, select head is_error = Some cb /\ fires head cb.
Proof.
  intros [[a Ha] [b Hb]]. unfold select, fires.
  destruct is_error; eauto.
Qed.

Lemma walk_prefix pre : forall rest w r s fuel,
  walked w = Some (pre ++ rest, r) ->
  Forall total pre ->
  Forall (plain_entry call) pre ->
  type_is_Effect (snd r) = false ->
  exists w' r' tr s',
    trampoline_loop call d (length pre + fuel) w s
    = trampoline_loop call d fuel w' s'
    /\ walked w' = Some (rest, r')
    /\ type_is_Effect (snd r') = false
    /\ invoked s' = invoked s ++ tr
    /\ Forall2 fires pre (map fst tr)
    /\ (exists h, history s' = history s ++ h).
Proof.
  induction pre as [| head pre IH]; intros rest w r s fuel Hw Htot Hpl Hr.
  - exists w, r, [], s. simpl. rewrite !app_nil_r.
    repeat split; eauto. exists []. by rewrite app_nil_r.
  - inversion Htot as [| ? ? Hhead Htot']; subst.
    inversion Hpl as [| ? ? Hphead Hpl']; subst.
    destruct r as [is_error v]. simpl in Hr.
    destruct (total_select head is_error Hhead) as (cb & Hsel & Hfire).
    destruct (loop_next call d (length pre + fuel) w _ _ s
                (moves_call call d w head (pre ++ rest) is_error v cb
                   Hw Hr Hsel))
      as (s1 & Hloop & Hinv1 & Hhist1).
    destruct (IH rest (Work_run_callbacks (pre ++ rest) (guarded call cb v))
                (guarded call cb v) s1 fuel)
      as (w' & r' & tr & s' & Hloop' & Hw' & Hr' & Hinv' & Hall & h & Hh);
      eauto using guarded_plain.
    exists w', r', ((cb, v) :: tr), s'.
    change (length (head :: pre) + fuel) with (S (length pre + fuel)).
    rewrite Hloop, Hloop'. simpl.
    repeat split; eauto.
    + rewrite Hinv', Hinv1, <- app_assoc. reflexivity.
    + exists (w :: h). rewrite Hh, Hhist1, <- app_assoc. reflexivity.
Qed.

End WalkFacts.

(** ** Frames in use *)

Lemma bounded_weaken {A} (m : M A) k k' :
  bounded m k -> k <= k' -> bounded m k'.
Proof. intros H Hk s. destruct (H s). split; [done | lia]. Qed.

Lemma bounded_ret {A} (a : A) : bounded (ret a) 0.
Proof. intros s. simpl. lia. Qed.

Lemma bounded_raise {A} e : bounded (@raise A e) 0.
Proof. intros s. simpl. lia. Qed.

Lemma bounded_bind {A B} (m : M A) (f : A -> M B) k :
  bounded m k -> (forall a, bounded (f a) k) -> bounded (bind m f) k.
Proof.
  intros Hm Hf s. unfold bind. specialize (Hm s).
  destruct (m s) as [[a | e] s1]; simpl in *.
  - specialize (Hf a s1). destruct (f a s1) as [r s2]. simpl in *. lia.
  - done.
Qed.

Lemma bounded_try {A B} (m : M A) (h : exn -> M B) (o : A -> M B) k :
  bounded m k -> (forall e, bounded (h e) k) -> (forall a, bounded (o a) k) ->
  bounded (try_except m h o) k.
Proof.
  intros Hm Hh Ho s. unfold try_except. specialize (Hm s).
  destruct (m s) as [[a | e] s1]; simpl in *.
  - specialize (Ho a s1). destruct (o a s1) as [r s2]. simpl in *. lia.
  - specialize (Hh e s1). destruct (h e s1) as [r s2]. simpl in *. lia.
Qed.

Lemma bounded_frame {A} (m : M A) k : bounded m k -> bounded (frame m) (S k).
Proof.
  intros Hm s. unfold frame. specialize (Hm (enter s)).
  destruct (m (enter s)) as [r s1]. simpl in *. lia.
Qed.

Lemma bounded_for_each {A} (f : A -> M unit) l k :
  (forall x, bounded (f x) k) -> bounded (for_each f l) k.
Proof.
  intros Hf. induction l as [| x l IH]; simpl.
  - eapply bounded_weaken; [ apply bounded_ret | lia ].
  - apply bounded_bind; [ apply Hf | intros _; apply IH ].
Qed.

Lemma bounded_bounce w : bounded (bounce w) 1.
Proof. intros s. unfold bounce, frame. simpl. lia. Qed.

Lemma bounded_succeed box v : bounded (succeed box v) 2.
Proof. apply bounded_frame, bounded_bounce. Qed.

Lemma bounded_fail box v : bounded (fail box v) 2.
Proof. apply bounded_frame, bounded_bounce. Qed.

Create HintDb frames.
#[local] Hint Resolve bounded_ret bounded_raise bounded_bounce
  bounded_succeed bounded_fail : frames.

(** [within k] proves [bounded m k] for a computation built from the
    monad's operations; each leaf is weakened to the frames still left. *)
Ltac within_leaf :=
  eapply bounded_weaken; [ solve [ eauto with frames ] | simpl; lia ].

Ltac within :=
  repeat first
    [ within_leaf
    | apply bounded_frame
    | apply bounded_bind; [ | intros ? ]
    | apply bounded_try; [ | intros ? | intros ? ]
    | apply bounded_for_each; intros ?
    | progress simpl
    | match goal with
      | |- bounded (match ?x with _ => _ end) _ => destruct x
      | |- bounded (let '(_, _) := ?x in _) _ => destruct x
      end ].

Lemma bounded_perform_effect calls fin box :
  bounded (perform_effect calls fin box) 3.
Proof. unfold perform_effect, apply_box_call. within. Qed.

Lemma bounded_default_dispatcher i box : bounded (default_dispatcher i box) 5.
Proof.
  unfold default_dispatcher, dispatch_method.
  apply bounded_frame. destruct i.
  - within.
  - apply bounded_frame, bounded_perform_effect.
  - within.
Qed.

Lemma bounded_with_callbacks i cbs : bounded (with_callbacks i cbs) 2.
Proof. unfold with_callbacks, Effect_init. within. Qed.

Lemma bounded_guard call f v : bounded (_guard call f v) 2.
Proof.
  unfold _guard, invoke. apply bounded_frame, bounded_try.
  - intros s. unfold frame. simpl. destruct (call f v); simpl; lia.
  - intros e. within.
  - intros a. within.
Qed.

Lemma bounded_run_callbacks call chain r : bounded (_run_callbacks call chain r) 3.
Proof.
  unfold _run_callbacks. destruct r as [is_error v].
  assert (Hrest : bounded
    (match chain with
     | [] => ret tt
     | head :: rest =>
         bind (match select head is_error with
               | Some cb => _guard call cb v
               | None => ret (is_error, v)
               end)
              (fun result' => bounce (Work_run_callbacks rest result'))
     end) 2).
  { destruct chain as [| head rest]; [ within |].
    apply bounded_bind.
    - destruct (select head is_error); [ apply bounded_guard | within ].
    - intros r. within. }
  apply bounded_frame.
  destruct v as [| | | | | [] inner |]; try exact Hrest.
  apply bounded_bind; [ apply bounded_with_callbacks | intros e; within ].
Qed.

Lemma bounded_step call d kd w :
  (forall i box, bounded (d i box) kd) ->
  bounded (step call d w) (Nat.max 4 (S kd)).
Proof.
  intros Hd. destruct w as [e | chain r | e r]; simpl.
  - unfold _perform.
    eapply bounded_weaken with (k := S (Nat.max 1 kd)); [| lia ].
    apply bounded_frame, bounded_bind.
    + eapply bounded_weaken; [ apply bounded_frame, bounded_ret | lia ].
    + intros box. apply bounded_bind.
      * eapply bounded_weaken; [ apply Hd | lia ].
      * intros v. eapply bounded_weaken; [ apply bounded_ret | lia ].
  - eapply bounded_weaken; [ apply bounded_run_callbacks | lia ].
  - eapply bounded_weaken;
      [ apply bounded_frame, bounded_run_callbacks | lia ].
Qed.

Lemma bounded_trampoline_loop call d kd fuel :
  (forall i box, bounded (d i box) kd) ->
  forall w, bounded (trampoline_loop call d fuel w) (Nat.max 4 (S kd)).
Proof.
  intros Hd. induction fuel as [| fuel IH]; intros w s.
  - simpl. lia.
  - simpl.
    pose proof (bounded_step call d kd w Hd
                  (Machine [] (invoked s) (history s ++ [w])
                     (depth s) (peak s))) as Hstep.
    destruct (step call d w _) as [[[] | e] s1];
      simpl in Hstep; try (simpl; lia).
    destruct (scheduled s1) as [| w' [| w'' l]]; try (simpl; lia).
    specialize (IH w' s1). lia.
Qed.

Lemma bounded_perform call d kd fuel e :
  (forall i box, bounded (d i box) kd) ->
  bounded (perform call d fuel e) (2 + Nat.max 4 (S kd)).
Proof.
  intros Hd. unfold perform, trampoline.
  by apply bounded_frame, bounded_frame, bounded_trampoline_loop.
Qed.

(** ** A chain of increments *)

Lemma iter_on_success c i n :
  Nat.iter n (fun e => on_success e (Some c)) (Effect i)
  = Effect_with i (replicate n (Some c, None)).
Proof.
  induction n as [| n IH]; [ reflexivity |].
  simpl. rewrite IH. unfold on_success, on. simpl.
  f_equal. clear IH. induction n as [| n IHn]; simpl; [ reflexivity |].
  f_equal. exact IHn.
Qed.

Lemma terminal_snoc s w r :
  walked w = Some ([], r) ->
  forall s', history s' = history s ++ [w] -> terminal s' = Some r.
Proof.
  intros Hw s' Hh. unfold terminal. rewrite Hh, last_snoc, Hw. reflexivity.
Qed.

Lemma walk_increments call d c n :
  (forall z, call c (VInt z) = Returns (VInt (z + 1))) ->
  forall w z s fuel,
    walked w = Some (replicate n (Some c, None), (false, VInt z)) ->
    exists s',
      trampoline_loop call d (S n + fuel) w s = (Normal Finished, s')
      /\ invoked s'
         = invoked s ++ map (fun k => (c, VInt (z + Z.of_nat k))) (seq 0 n)
      /\ terminal s' = Some (false, VInt (z + Z.of_nat n)).
Proof.
  intros Hc. induction n as [| n IH]; intros w z s fuel Hw.
  - destruct (loop_finish call d fuel w [] s
                (moves_end call d w false (VInt z) Hw eq_refl))
      as (s' & Hloop & Hinv & Hh).
    exists s'. simpl. rewrite Z.add_0_r. split; [ exact Hloop |].
    split; [ exact Hinv |]. eapply terminal_snoc; eauto.
  - simpl in Hw.
    pose proof (moves_call call d w (Some c, None) (replicate n (Some c, None))
                  false (VInt z) c Hw eq_refl eq_refl) as Hmove.
    unfold guarded in Hmove. rewrite Hc in Hmove.
    destruct (loop_next call d (S n + fuel) w _ _ s Hmove)
      as (s1 & Hloop & Hinv & Hh).
    destruct (IH (Work_run_callbacks (replicate n (Some c, None))
                    (false, VInt (z + 1))) (z + 1)%Z s1 fuel eq_refl)
      as (s' & Hloop' & Hinv' & Hterm).
    exists s'. change (S (S n) + fuel) with (S (S n + fuel)).
    rewrite Hloop, Hloop'. split; [ reflexivity |]. split.
    + rewrite Hinv', Hinv, <- app_assoc. f_equal. simpl.
      rewrite Z.add_0_r. f_equal.
      rewrite <- seq_shift, map_map. apply map_ext. intros k.
      do 2 f_equal. lia.
    + rewrite Hterm. do 3 f_equal. lia.
Qed.

(** ** Facts about the store *)

Lemma fresh_unused (h : gmap Store.loc Store.object) :
  h !! fresh (dom h) = None.
Proof. apply not_elem_of_dom, is_fresh. Qed.

Lemma insert_fresh_keeps (h : gmap Store.loc Store.object) o l x :
  h !! l = Some x -> <[fresh (dom h) := o]> h !! l = Some x.
Proof.
  intros Hl. rewrite lookup_insert_ne; [ done |].
  intros <-. rewrite fresh_unused in Hl. discriminate.
Qed.

Lemma and_then_some {A B} (m : Store.St A) (f : A -> Store.St B) h a h' :
  m h = Some (a, h') -> Store.and_then m f h = f a h'.
Proof. intros H. unfold Store.and_then. by rewrite H. Qed.

Lemma alloc_some o (h : gmap Store.loc Store.object) :
  Store.alloc o h = Some (fresh (dom h), <[fresh (dom h) := o]> h).
Proof. reflexivity. Qed.

Lemma list_add_some (h : gmap Store.loc Store.object) a b xs ys :
  h !! a = Some (Store.List_object xs) ->
  h !! b = Some (Store.List_object ys) ->
  Store.list_add a b h
  = Some (fresh (dom h), <[fresh (dom h) := Store.List_object (xs ++ ys)]> h).
Proof. intros Ha Hb. unfold Store.list_add. by rewrite Ha, Hb. Qed.

Lemma with_callbacks_some (h : gmap Store.loc Store.object) k i cbs :
  exists r h',
    Store.with_callbacks k i cbs h = Some (r, h')
    /\ h !! r = None
    /\ (forall l o, h !! l = Some o -> h' !! l = Some o)
    /\ h' !! r = Some (Store.Effect_object k i cbs).
Proof.
  unfold Store.with_callbacks, Store.new_Effect.
  erewrite and_then_some;
    [| erewrite and_then_some; [ apply alloc_some | apply alloc_some ] ].
  set (h1 := <[fresh (dom h) := Store.List_object []]> h).
  set (r := fresh (dom h1)).
  unfold Store.and_then, Store.set_callbacks, Store.pure.
  rewrite lookup_insert_eq.
  exists r, (<[r := Store.Effect_object k i cbs]> (<[r := Store.Effect_object k i (fresh (dom h))]> h1)).
  split; [ reflexivity |].
  assert (Hr1 : h1 !! r = None) by apply fresh_unused.
  assert (Hr : h !! r = None).
  { destruct (h !! r) as [o |] eqn:E; [| reflexivity ].
    apply (insert_fresh_keeps h (Store.List_object [])) in E.
    fold h1 in E. congruence. }
  split; [ exact Hr |]. split.
  - intros l o Hl. rewrite insert_insert_eq.
    rewrite lookup_insert_ne by congruence.
    by apply insert_fresh_keeps.
  - apply lookup_insert_eq.
Qed.

Lemma on_allocates (h : gmap Store.loc Store.object) self k i cbs items
    success error :
  h !! self = Some (Store.Effect_object k i cbs) ->
  h !! cbs = Some (Store.List_object items) ->
  exists r extended h',
    Store.on self success error h = Some (r, h')
    /\ h !! r = None
    /\ (forall l o, h !! l = Some o -> h' !! l = Some o)
    /\ h' !! r = Some (Store.Effect_object Effect_class i extended)
    /\ h !! extended = None
    /\ h' !! extended = Some (Store.List_object (items ++ [(success, error)])).
Proof.
  intros Hself Hcbs. unfold Store.on.
  erewrite and_then_some by (unfold Store.get_intent; by rewrite Hself).
  erewrite and_then_some by (unfold Store.get_callbacks; by rewrite Hself).
  erewrite and_then_some by apply alloc_some.
  set (l1 := fresh (dom h)).
  set (h1 := <[l1 := Store.List_object [(success, error)]]> h).
  erewrite and_then_some
    by (apply list_add_some;
        [ apply insert_fresh_keeps, Hcbs | apply lookup_insert_eq ]).
  set (l2 := fresh (dom h1)).
  set (h2 := <[l2 := Store.List_object (items ++ [(success, error)])]> h1).
  destruct (with_callbacks_some h2 Effect_class i l2)
    as (r & h' & Hrun & Hnew & Hkeep & Hr).
  assert (Hkeep2 : forall l o, h !! l = Some o -> h2 !! l = Some o).
  { intros l o Hl. subst h2 h1 l2 l1. by do 2 apply insert_fresh_keeps. }
  exists r, l2, h'. split; [ exact Hrun |].
  split; [| split; [| split; [| split ]]].
  - destruct (h !! r) as [o |] eqn:E; [| reflexivity ].
    apply Hkeep2 in E. congruence.
  - intros l o Hl. by apply Hkeep, Hkeep2.
  - exact Hr.
  - destruct (h !! l2) as [o |] eqn:E; [| reflexivity ].
    apply (insert_fresh_keeps h (Store.List_object [(success, error)])) in E.
    fold l1 h1 in E. pose proof (fresh_unused h1) as Hf. fold l2 in Hf.
    congruence.
  - apply Hkeep. apply lookup_insert_eq.
Qed.

(** ** A failure passing entries that have no error continuation *)

Lemma walk_skips call d v pre : forall rest w s fuel,
  type_is_Effect v = false ->
  Forall (fun e : entry => snd e = None) pre ->
  walked w = Some (pre ++ rest, (true, v)) ->
  exists w' s',
    trampoline_loop call d (length pre + fuel) w s
    = trampoline_loop call d fuel w' s'
    /\ walked w' = Some (rest, (true, v))
    /\ invoked s' = invoked s.
Proof.
  induction pre as [| head pre IH]; intros rest w s fuel Hv Hall Hw.
  - by exists w, s.
  - inversion Hall as [| ? ? Hhead Hpre]; subst.
    destruct (loop_next call d (length pre + fuel) w _ _ s
                (moves_skip call d w head (pre ++ rest) true v Hw Hv Hhead))
      as (s1 & Hloop & Hinv & _).
    destruct (IH rest (Work_run_callbacks (pre ++ rest) (true, v)) s1 fuel
                Hv Hpre eq_refl) as (w' & s' & Hloop' & Hw' & Hinv').
    exists w', s'.
    change (length (head :: pre) + fuel) with (S (length pre + fuel)).
    rewrite Hloop, Hloop'. split; [ reflexivity |]. split; [ exact Hw' |].
    by rewrite Hinv', Hinv, app_nil_r.
Qed.

(** ** The walk the specification describes *)

Lemma walk_spec call d chain : forall rest w r s fuel tr r',
  spec_walk call chain r = Some (tr, r') ->
  walked w = Some (chain ++ rest, r) ->
  exists w' s',
    trampoline_loop call d (length chain + fuel) w s
    = trampoline_loop call d fuel w' s'
    /\ walked w' = Some (rest, r')
    /\ type_is_Effect (snd r') = false
    /\ invoked s' = invoked s ++ tr
    /\ (exists h, history s' = history s ++ h).
Proof.
  induction chain as [| e chain IH]; intros rest w [t v] s fuel tr r' Hspec Hw;
    simpl in Hspec; destruct (type_is_Effect v) eqn:Hv; try discriminate.
  - injection Hspec as <- <-. exists w, s. rewrite app_nil_r.
    split; [ reflexivity |]. split; [ exact Hw |]. split; [ exact Hv |].
    split; [ reflexivity |]. exists []. by rewrite app_nil_r.
  - change (if t then snd e else fst e) with (select e t) in Hspec.
    destruct (select e t) as [c |] eqn:Hsel.
    + destruct (spec_walk call chain (guarded call c v))
        as [[tr0 r0] |] eqn:Hrest; [| discriminate ].
      injection Hspec as <- <-.
      destruct (loop_next call d (length chain + fuel) w _ _ s
                  (moves_call call d w e (chain ++ rest) t v c Hw Hv Hsel))
        as (s1 & Hloop1 & Hinv1 & Hh1).
      destruct (IH rest (Work_run_callbacks (chain ++ rest) (guarded call c v))
                  (guarded call c v) s1 fuel tr0 r0 Hrest eq_refl)
        as (w' & s' & Hloop' & Hw' & Hr' & Hinv' & h & Hh').
      exists w', s'.
      change (length (e :: chain) + fuel) with (S (length chain + fuel)).
      rewrite Hloop1, Hloop'. split; [ reflexivity |].
      split; [ exact Hw' |]. split; [ exact Hr' |]. split.
      * by rewrite Hinv', Hinv1, <- app_assoc.
      * exists (w :: h). by rewrite Hh', Hh1, <- app_assoc.
    + destruct (loop_next call d (length chain + fuel) w _ _ s
                  (moves_skip call d w e (chain ++ rest) t v Hw Hv Hsel))
        as (s1 & Hloop1 & Hinv1 & Hh1).
      destruct (IH rest (Work_run_callbacks (chain ++ rest) (t, v))
                  (t, v) s1 fuel tr r' Hspec eq_refl)
        as (w' & s' & Hloop' & Hw' & Hr' & Hinv' & h & Hh').
      exists w', s'.
      change (length (e :: chain) + fuel) with (S (length chain + fuel)).
      rewrite Hloop1, Hloop'. split; [ reflexivity |].
      split; [ exact Hw' |]. split; [ exact Hr' |]. split.
      * by rewrite Hinv', Hinv1, app_nil_r.
      * exists (w :: h). by rewrite Hh', Hh1, <- app_assoc.
Qed.

Lemma spec_walk_in_order call chain : forall r tr r',
  spec_walk call chain r = Some (tr, r') ->
  exists sub, sublist sub chain /\ Forall2 fires sub (map fst tr).
Proof.
  induction chain as [| e chain IH]; intros [t v] tr r' Hspec;
    simpl in Hspec; destruct (type_is_Effect v); try discriminate.
  - injection Hspec as <- <-. exists []. split; constructor.
  - destruct (if t then snd e else fst e) as [c |] eqn:Hsel.
    + destruct (spec_walk call chain (guarded call c v))
        as [[tr0 r0] |] eqn:Hrest; [| discriminate ].
      injection Hspec as <- <-.
      destruct (IH _ _ _ Hrest) as (sub & Hsub & Hall).
      exists (e :: sub). split; [ by constructor |].
      simpl. constructor; [| exact Hall ].
      unfold fires. destruct t; eauto.
    + destruct (IH _ _ _ Hspec) as (sub & Hsub & Hall).
      exists sub. split; [ by constructor | exact Hall ].
Qed.

(** ** A run taken up where it stood *)

(** When the fuel runs out with [w] scheduled, more fuel goes on with [w]. *)
Lemma loop_resume call d n : forall w0 s0 s1 w,
  trampoline_loop call d (S n) w0 s0 = (Normal Out_of_fuel, s1) ->
  scheduled s1 = [w] ->
  forall k, trampoline_loop call d (S n + k) w0 s0
            = trampoline_loop call d k w s1.
Proof.
  induction n as [| n IH]; intros w0 s0 s1 w Hrun Hsch k.
  - simpl in Hrun |- *.
    destruct (step call d w0 _) as [[[] | x] s']; [| discriminate Hrun ].
    destruct (scheduled s') as [| w' [| w'' l]] eqn:Hs'; try discriminate Hrun.
    injection Hrun as <-. rewrite Hs' in Hsch. by injection Hsch as ->.
  - change (S (S n) + k) with (S (S n + k)).
    cbn [trampoline_loop] in Hrun |- *.
    destruct (step call d w0 _) as [[[] | x] s']; [| discriminate Hrun ].
    destruct (scheduled s') as [| w' [| w'' l]] eqn:Hs'; try discriminate Hrun.
    by apply IH.
Qed.

Lemma perform_unfolds call d fuel e r s' :
  perform call d fuel e initial = (r, s') <->
  exists s1,
    trampoline_loop call d fuel (Work_perform e) (enter (enter initial))
    = (r, s1)
    /\ s' = leave 0 (leave 1 s1).
Proof.
  unfold perform, trampoline, frame. simpl.
  destruct (trampoline_loop call d fuel (Work_perform e) _) as [r1 s1].
  split.
  - intros H. injection H as <- <-. by exists s1.
  - intros (s2 & H & ->). by injection H as -> ->.
Qed.

(** ** A run with one splice *)

(** The outer chain is walked up to the entry whose continuation returns
    [inner]; the Effect with the intent of [inner] and the chain of [inner]
    followed by the rest of the outer chain is performed; that chain is
    walked to its end. *)
Lemma splice_run call d inner i pre ci post r0 r1 tr1 t v c tr2 r2 :
  resolves d i r0 ->
  resolves d (intent_of inner) r1 ->
  spec_walk call pre r0 = Some (tr1, (t, v)) ->
  select ci t = Some c ->
  call c v = Returns (VInstance Effect_class inner) ->
  spec_walk call (callbacks inner ++ post) r1 = Some (tr2, r2) ->
  exists fuel s',
    perform call d fuel (Effect_with i (pre ++ ci :: post)) initial
    = (Normal Finished, s')
    /\ In (Work_perform
             (Effect_with (intent_of inner) (callbacks inner ++ post)))
          (history s')
    /\ invoked s' = tr1 ++ (c, v) :: tr2
    /\ terminal s' = Some r2.
Proof.
  intros Hres0 Hres1 Hpre Hsel Hci Htail.
  set (outer := Effect_with i (pre ++ ci :: post)).
  set (spliced := Effect_with (intent_of inner) (callbacks inner ++ post)).
  set (tail := callbacks inner ++ post) in *.
  exists (S (length pre + S (S (S (length tail + 1))))).
  destruct (perform_loop call d (S (length pre + S (S (S (length tail + 1)))))
              outer initial) as (s0 & Hinv0 & Hh0 & Hperf).
  (* the dispatcher resolves the outer intent *)
  destruct (loop_next call d (length pre + S (S (S (length tail + 1))))
              _ _ _ s0 (moves_perform call d outer r0 Hres0))
    as (sA & HloopA & HinvA & HhA).
  (* C1 .. C_(i-1) *)
  destruct (walk_spec call d pre (ci :: post) (Work_lambda outer r0) r0 sA
              (S (S (S (length tail + 1)))) tr1 (t, v) Hpre eq_refl)
    as (w1 & sB & HloopB & Hw1 & Hv & HinvB & hB & HhB).
  simpl in Hv.
  (* C_i returns the inner Effect *)
  pose proof (moves_call call d w1 ci post t v c Hw1 Hv Hsel) as HmoveC.
  unfold guarded in HmoveC. rewrite Hci in HmoveC.
  destruct (loop_next call d (S (S (length tail + 1))) _ _ _ sB HmoveC)
    as (sC & HloopC & HinvC & HhC).
  (* the splice *)
  destruct (loop_next call d (S (length tail + 1)) _ _ _ sC
              (moves_splice call d
                 (Work_run_callbacks post (false, VInstance Effect_class inner))
                 post false inner eq_refl))
    as (sD & HloopD & HinvD & HhD).
  change (Effect_with (intent_of inner) (callbacks inner ++ post))
    with spliced in HloopD.
  (* the dispatcher resolves the inner intent *)
  destruct (loop_next call d (length tail + 1) _ _ _ sD
              (moves_perform call d spliced r1 Hres1))
    as (sE & HloopE & HinvE & HhE).
  (* D1 .. Dm, C_(i+1) .. Cn *)
  destruct (walk_spec call d tail [] (Work_lambda spliced r1) r1 sE 1
              tr2 r2 Htail)
    as (w2 & sF & HloopF & Hw2 & Hv2 & HinvF & hF & HhF).
  { simpl. by rewrite app_nil_r. }
  (* the chain is exhausted *)
  destruct r2 as [t2 v2]. simpl in Hv2.
  destruct (loop_finish call d 0 w2 [] sF (moves_end call d w2 t2 v2 Hw2 Hv2))
    as (sG & HloopG & HinvG & HhG).
  destruct (Hperf (Normal Finished) sG) as (s' & Hrun & Hinv' & Hh').
  { by rewrite HloopA, HloopB, HloopC, HloopD, HloopE, HloopF, HloopG. }
  exists s'. split; [ exact Hrun |]. split; [| split ].
  - rewrite Hh', HhG, HhF, HhE.
    apply in_or_app; left. apply in_or_app; left.
    apply in_or_app; right. by left.
  - rewrite Hinv', HinvG, HinvF, HinvE, HinvD, HinvC, HinvB, HinvA, Hinv0.
    simpl. by rewrite !app_nil_r, <- app_assoc.
  - unfold terminal. rewrite Hh'.
    exact (terminal_snoc sF w2 (t2, v2) Hw2 sG HhG).
Qed.

(** A success walked against entries attached with [on_success] whose
    continuations return values that are not Effects: each is called. *)
Lemma spec_walk_successes call cs : forall v,
  type_is_Effect v = false ->
  (forall c u, In c cs ->
     exists w, call c u = Returns w /\ type_is_Effect w = false) ->
  exists tr v',
    spec_walk call (map (fun c => (Some c, None)) cs) (false, v)
    = Some (tr, (false, v'))
    /\ map fst tr = cs
    /\ type_is_Effect v' = false.
Proof.
  induction cs as [| c cs IH]; intros v Hv Hcs; simpl; rewrite Hv.
  - by exists [], v.
  - destruct (Hcs c v (or_introl eq_refl)) as (w & Hc & Hw).
    unfold guarded. rewrite Hc.
    destruct (IH w Hw) as (tr & v' & Hs & Hm & Hv').
    { intros c' u Hin. apply Hcs. by right. }
    rewrite Hs. exists ((c, v) :: tr), v'.
    split; [ reflexivity |]. split; [| exact Hv' ].
    simpl. by rewrite Hm.
Qed.

(** * Theorems *)

(** ** Unhandled intents and unhandled failures *)

(** C1, as the specification states it, does not hold: with the default
    dispatcher, an [Effect] whose intent has no [perform_effect] and to
    which an [on_error] continuation is attached makes [perform] raise
    [NoEffectHandlerError], and with no amount of fuel is any continuation
    called. *)
Lemma no_handler_not_delivered_to_on_error :
  let call := fun (_ : callback) (_ : value) => Returns (VStr "fallback") in
  let e := on_error (Effect (Opaque "intent")) (Some 0) in
  fst (perform call default_dispatcher 1 e initial)
  = Raised (NoEffectHandlerError (Opaque "intent"))
  /\ ~ (exists fuel,
          invoked (snd (perform call default_dispatcher fuel e initial)) <> []).
Proof.
  intros call e. split; [ reflexivity |].
  intros [[| fuel] H]; apply H; reflexivity.
Qed.

(** C1 (amended): for every Effect whose intent has no [perform_effect],
    performing it with the default dispatcher raises
    [NoEffectHandlerError] naming that intent out of the dispatcher and out
    of [perform]; the box is not resolved, and no continuation of the
    Effect's chain is called. *)
Theorem default_dispatcher_raises_no_handler call i chain fuel :
  has_perform_effect i = false ->
  (forall box, runs (default_dispatcher i box)
                 (Raised (NoEffectHandlerError i)) [] [] 2)
  /\ exists s',
       perform call default_dispatcher (S fuel) (Effect_with i chain) initial
       = (Raised (NoEffectHandlerError i), s')
       /\ invoked s' = []
       /\ history s' = [Work_perform (Effect_with i chain)].
Proof.
  intros Hi. split; [ intros box; by apply runs_default_no_handler |].
  destruct (perform_loop call default_dispatcher (S fuel)
              (Effect_with i chain) initial) as (s0 & Hinv0 & Hh0 & Hperf).
  assert (Hmove : moves call default_dispatcher
                    (Work_perform (Effect_with i chain))
                    (Raised (NoEffectHandlerError i)) [] []).
  { eexists. simpl. unfold _perform. eapply runs_eq.
    - apply runs_frame. eapply runs_bind; [ apply runs_frame, runs_ret |].
      apply runs_bind_raised. simpl. by apply runs_default_no_handler.
    - reflexivity.
    - reflexivity.
    - reflexivity. }
  destruct (loop_raise call default_dispatcher fuel _ _ _ _ s0 Hmove)
    as (s1 & Hloop & Hinv1 & Hh1).
  destruct (Hperf _ _ Hloop) as (s' & Hrun & Hinv' & Hh').
  exists s'. split; [ exact Hrun |]. split.
  - by rewrite Hinv', Hinv1, Hinv0.
  - by rewrite Hh', Hh1, Hh0.
Qed.

Lemma default_dispatcher_raises_no_handler_witness :
  has_perform_effect (Opaque "intent") = false
  /\ exists s',
       perform (fun _ _ => Returns VNone) default_dispatcher 1
         (Effect_with (Opaque "intent") [(None, Some 0)]) initial
       = (Raised (NoEffectHandlerError (Opaque "intent")), s')
       /\ invoked s' = []
       /\ history s'
          = [Work_perform (Effect_with (Opaque "intent") [(None, Some 0)])].
Proof.
  split; [ reflexivity |].
  apply (default_dispatcher_raises_no_handler (fun _ _ => Returns VNone)
           (Opaque "intent") [(None, Some 0)] 0).
  reflexivity.
Defined.

(** C2, as the specification states it, does not hold: a failure that
    reaches the end of an empty chain leaves [perform] returning normally
    with no continuation called, which is exactly what the caller observes
    when the intent succeeds. *)
Lemma unhandled_failure_not_surfaced :
  let call := fun (_ : callback) (_ : value) => Returns VNone in
  let boom := VExcInfo (Exception "boom") in
  let failing := Effect (Performable "p" [Fail boom] (Returns VNone)) in
  let fine := Effect (Performable "p" [Succeed VNone] (Returns VNone)) in
  (exists s',
     perform call default_dispatcher 2 failing initial = (Normal Finished, s')
     /\ terminal s' = Some (true, boom)
     /\ invoked s' = [])
  /\ observable (perform call default_dispatcher 2 failing initial)
     = observable (perform call default_dispatcher 2 fine initial).
Proof.
  intros call boom failing fine. split.
  - exists (snd (perform call default_dispatcher 2 failing initial)).
    split; [| split ]; vm_compute; reflexivity.
  - vm_compute. reflexivity.
Qed.

(** C2 (amended): for every perform call in which a failure result reaches
    the end of the callback chain with no error continuation having handled
    it, [_run_callbacks] returns without scheduling anything: the loop ends,
    [perform] returns normally, and the failure has been passed to no
    continuation since it arose. It reaches the caller only through a
    further entry with an error continuation, which is called with it.
    First part: from any step of any run at which a failure is walked
    against entries that have no error continuation, wherever the failure
    came from (the box, or a continuation that raised). Second part: the
    same for a [perform] call that has come to such a step after [n] steps,
    which is what [perform] with fuel [n] shows as the scheduled call.
    Third and fourth part: the intent itself fails. *)
Theorem unhandled_failure_is_discarded call d :
  (forall w chain v fuel s,
     walked w = Some (chain, (true, v)) ->
     type_is_Effect v = false ->
     Forall (fun e : entry => snd e = None) chain ->
     exists s',
       trampoline_loop call d (length chain + 1 + fuel) w s
       = (Normal Finished, s')
       /\ terminal s' = Some (true, v)
       /\ invoked s' = invoked s)
  /\ (forall e n sn w chain v fuel,
        perform call d n e initial = (Normal Out_of_fuel, sn) ->
        scheduled sn = [w] ->
        walked w = Some (chain, (true, v)) ->
        type_is_Effect v = false ->
        Forall (fun e : entry => snd e = None) chain ->
        exists s',
          perform call d (n + (length chain + 1 + fuel)) e initial
          = (Normal Finished, s')
          /\ terminal s' = Some (true, v)
          /\ invoked s' = invoked sn)
  /\ (forall i chain v fuel,
        resolves d i (true, v) ->
        type_is_Effect v = false ->
        Forall (fun e : entry => snd e = None) chain ->
        exists s',
          perform call d (length chain + 2 + fuel) (Effect_with i chain)
            initial
          = (Normal Finished, s')
          /\ terminal s' = Some (true, v)
          /\ invoked s' = [])
  /\ (forall i chain v fuel success errback,
        resolves d i (true, v) ->
        type_is_Effect v = false ->
        Forall (fun e : entry => snd e = None) chain ->
        plain call errback ->
        exists s',
          perform call d (length chain + 3 + fuel)
            (Effect_with i (chain ++ [(success, Some errback)])) initial
          = (Normal Finished, s')
          /\ invoked s' = [(errback, v)]).
Proof.
  assert (Hwalk : forall w chain v fuel s,
            walked w = Some (chain, (true, v)) ->
            type_is_Effect v = false ->
            Forall (fun e : entry => snd e = None) chain ->
            exists s',
              trampoline_loop call d (length chain + 1 + fuel) w s
              = (Normal Finished, s')
              /\ terminal s' = Some (true, v)
              /\ invoked s' = invoked s).
  { intros w chain v fuel s Hw Hv Hchain.
    destruct (walk_skips call d v chain [] w s (S fuel) Hv Hchain)
      as (w2 & s2 & Hloop2 & Hw2 & Hinv2).
    { by rewrite app_nil_r. }
    destruct (loop_finish call d fuel w2 [] s2
                (moves_end call d w2 true v Hw2 Hv))
      as (s3 & Hloop3 & Hinv3 & Hh3).
    exists s3. replace (length chain + 1 + fuel) with (length chain + S fuel)
      by lia.
    rewrite Hloop2, Hloop3. split; [ reflexivity |]. split.
    - by eapply terminal_snoc.
    - by rewrite Hinv3, Hinv2, app_nil_r. }
  split; [ exact Hwalk |]. split; [| split ].
  - intros e n sn w chain v fuel Hrun Hsch Hw Hv Hchain.
    apply perform_unfolds in Hrun as (s1 & Hloop & ->).
    change (scheduled s1 = [w]) in Hsch.
    destruct n as [| n].
    { simpl in Hloop. injection Hloop as <-. discriminate Hsch. }
    destruct (Hwalk w chain v fuel s1 Hw Hv Hchain)
      as (s' & Hloop' & Hterm & Hinv).
    exists (leave 0 (leave 1 s')). split; [| split ].
    + apply perform_unfolds. exists s'. split; [| reflexivity ].
      by rewrite (loop_resume call d n _ _ _ _ Hloop Hsch).
    + exact Hterm.
    + exact Hinv.
  - intros i chain v fuel Hres Hv Hchain.
    destruct (perform_loop call d (length chain + 2 + fuel)
                (Effect_with i chain) initial) as (s0 & Hinv0 & Hh0 & Hperf).
    replace (length chain + 2 + fuel) with (S (length chain + 1 + fuel)) in *
      by lia.
    destruct (loop_next call d (length chain + 1 + fuel) _ _ _ s0
                (moves_perform call d (Effect_with i chain) (true, v) Hres))
      as (s1 & Hloop1 & Hinv1 & _).
    destruct (Hwalk (Work_lambda (Effect_with i chain) (true, v)) chain v
                fuel s1 eq_refl Hv Hchain) as (s2 & Hloop2 & Hterm & Hinv2).
    destruct (Hperf (Normal Finished) s2) as (s' & Hrun & Hinv' & Hh').
    { by rewrite Hloop1, Hloop2. }
    exists s'. split; [ exact Hrun |]. split.
    + unfold terminal in *. by rewrite Hh'.
    + by rewrite Hinv', Hinv2, Hinv1, Hinv0.
  - intros i chain v fuel success errback Hres Hv Hchain Hplain.
    set (e := Effect_with i (chain ++ [(success, Some errback)])).
    destruct (perform_loop call d (length chain + 3 + fuel) e initial)
      as (s0 & Hinv0 & Hh0 & Hperf).
    replace (length chain + 3 + fuel) with (S (length chain + S (S fuel)))
      in * by lia.
    destruct (loop_next call d (length chain + S (S fuel)) _ _ _ s0
                (moves_perform call d e (true, v) Hres))
      as (s1 & Hloop1 & Hinv1 & _).
    destruct (walk_skips call d v chain [(success, Some errback)]
                (Work_lambda e (true, v)) s1 (S (S fuel)) Hv Hchain eq_refl)
      as (w2 & s2 & Hloop2 & Hw2 & Hinv2).
    destruct (loop_next call d (S fuel) w2 _ _ s2
                (moves_call call d w2 (success, Some errback) [] true v
                   errback Hw2 Hv eq_refl))
      as (s3 & Hloop3 & Hinv3 & _).
    destruct (guarded call errback v) as [t' v'] eqn:Hg.
    assert (Hv' : type_is_Effect v' = false).
    { pose proof (guarded_plain call errback v Hplain) as H.
      by rewrite Hg in H. }
    destruct (loop_finish call d fuel (Work_run_callbacks [] (t', v')) [] s3
                (moves_end call d (Work_run_callbacks [] (t', v')) t' v'
                   eq_refl Hv'))
      as (s4 & Hloop4 & Hinv4 & _).
    destruct (Hperf (Normal Finished) s4) as (s' & Hrun & Hinv' & _).
    { by rewrite Hloop1, Hloop2, Hloop3, Hloop4. }
    exists s'. split; [ exact Hrun |].
    by rewrite Hinv', Hinv4, Hinv3, Hinv2, Hinv1, Hinv0, !app_nil_r.
Qed.

Lemma unhandled_failure_is_discarded_witness :
  let call := fun (c : callback) (_ : value) =>
                match c with
                | 0 => Raises (Exception "boom")
                | _ => Returns VNone
                end in
  let e := Effect_with (Performable "p" [Succeed VNone] (Returns VNone))
             [(None, Some 7); (Some 0, None)] in
  exists s',
    perform call default_dispatcher (3 + (0 + 1 + 0)) e initial
    = (Normal Finished, s')
    /\ terminal s' = Some (true, VExcInfo (Exception "boom"))
    /\ invoked s' = [(0, VNone)].
Proof.
  intros call e.
  destruct (proj1 (proj2 (unhandled_failure_is_discarded call
                            default_dispatcher))
              e 3 (snd (perform call default_dispatcher 3 e initial))
              (Work_run_callbacks [] (true, VExcInfo (Exception "boom"))) []
              (VExcInfo (Exception "boom")) 0)
    as (s' & Hrun & Hterm & Hinv).
  - vm_compute. reflexivity.
  - vm_compute. reflexivity.
  - reflexivity.
  - reflexivity.
  - constructor.
  - exists s'. split; [ exact Hrun |]. split; [ exact Hterm |].
    rewrite Hinv. vm_compute. reflexivity.
Defined.

(** ** The Twisted dispatcher *)

(** C5: for every intent with a [perform_effect] method,
    [twisted_dispatcher] fails the box with the [TypeError] of its
    two-argument call of [dispatch_method]; the method is not invoked,
    whatever it would do with the box, return or raise. *)
Theorem twisted_dispatcher_fails_box_with_TypeError gather name calls fin
    box s :
  exists s',
    twisted_dispatcher gather (Performable name calls fin) box s
    = (Normal VNone, s')
    /\ scheduled s'
       = scheduled s
         ++ [_more box
               (true,
                VExcInfo
                  (TypeError "dispatch_method() takes exactly 3 arguments"))]
    /\ invoked s' = invoked s.
Proof.
  eexists. split.
  - by apply runs_twisted_not_parallel.
  - simpl. by rewrite app_nil_r.
Qed.

(** ** Walking the chain *)

(** C6, as the specification states it, does not hold: a result whose
    value is an [Effect] does not pass an entry whose matching continuation
    is absent. With a success holding an Effect at an entry attached by
    [on_error], [_run_callbacks] schedules the performing of that Effect,
    the entry still in its chain, and not the next entry with the result. *)
Lemma effect_result_is_not_passed_through :
  let call := fun (_ : callback) (_ : value) => Returns VNone in
  let inner := Effect_with (Opaque "inner") [] in
  let chain := [(None, Some 1); (Some 2, None)] in
  scheduled
    (snd (_run_callbacks call chain (false, VInstance Effect_class inner)
            initial))
  = [Work_perform (Effect_with (Opaque "inner") chain)]
  /\ scheduled
       (snd (_run_callbacks call chain (false, VInstance Effect_class inner)
               initial))
     <> [Work_run_callbacks [(Some 2, None)]
           (false, VInstance Effect_class inner)].
Proof.
  intros call inner chain. split; [ reflexivity | discriminate ].
Qed.

(** C6 (amended): for every callback-chain entry whose continuation matching
    the current result's tag is absent (a success at an entry without
    success continuation, a failure at an entry without error
    continuation), a result whose value is not of type exactly [Effect]
    passes to the next entry unchanged, tag included, and no continuation
    is called; a result whose value is of type exactly [Effect] is spliced
    instead, the entry staying at the head of the chain that follows the
    Effect's own. *)
Theorem absent_continuation_passes_result_through call d
    (success error : option callback) rest fuel s :
  (forall v,
     type_is_Effect v = false ->
     (exists s',
        _run_callbacks call ((None, error) :: rest) (false, v) s
        = (Normal tt, s')
        /\ scheduled s' = scheduled s ++ [Work_run_callbacks rest (false, v)]
        /\ invoked s' = invoked s)
     /\ (exists s',
           _run_callbacks call ((success, None) :: rest) (true, v) s
           = (Normal tt, s')
           /\ scheduled s'
              = scheduled s ++ [Work_run_callbacks rest (true, v)]
           /\ invoked s' = invoked s)
     /\ (exists s',
           trampoline_loop call d (S fuel)
             (Work_run_callbacks ((None, error) :: rest) (false, v)) s
           = trampoline_loop call d fuel
               (Work_run_callbacks rest (false, v)) s'
           /\ invoked s' = invoked s)
     /\ (exists s',
           trampoline_loop call d (S fuel)
             (Work_run_callbacks ((success, None) :: rest) (true, v)) s
           = trampoline_loop call d fuel
               (Work_run_callbacks rest (true, v)) s'
           /\ invoked s' = invoked s))
  /\ (forall head is_error inner,
        exists s',
          _run_callbacks call (head :: rest)
            (is_error, VInstance Effect_class inner) s
          = (Normal tt, s')
          /\ scheduled s'
             = scheduled s
               ++ [Work_perform
                     (Effect_with (intent_of inner)
                        (callbacks inner ++ head :: rest))]
          /\ invoked s' = invoked s).
Proof.
  split.
  - intros v Hv.
    assert (Hstep : forall (head : entry) (is_error : bool),
              (if is_error then snd head else fst head) = None ->
              exists s',
                _run_callbacks call (head :: rest) (is_error, v) s
                = (Normal tt, s')
                /\ scheduled s'
                   = scheduled s ++ [Work_run_callbacks rest (is_error, v)]
                /\ invoked s' = invoked s).
    { intros head is_error Habsent. eexists.
      split; [ by apply runs_run_callbacks_skip |].
      simpl. by rewrite app_nil_r. }
    assert (Hloop : forall (head : entry) (is_error : bool),
              (if is_error then snd head else fst head) = None ->
              exists s',
                trampoline_loop call d (S fuel)
                  (Work_run_callbacks (head :: rest) (is_error, v)) s
                = trampoline_loop call d fuel
                    (Work_run_callbacks rest (is_error, v)) s'
                /\ invoked s' = invoked s).
    { intros head is_error Habsent.
      destruct (loop_next call d fuel _ _ _ s
                  (moves_skip call d
                     (Work_run_callbacks (head :: rest) (is_error, v))
                     head rest is_error v eq_refl Hv Habsent))
        as (s' & Hl & Hinv & _).
      exists s'. split; [ exact Hl |]. by rewrite Hinv, app_nil_r. }
    split; [ by apply (Hstep (None, error) false) |].
    split; [ by apply (Hstep (success, None) true) |].
    split; [ by apply (Hloop (None, error) false) |].
    by apply (Hloop (success, None) true).
  - intros head is_error inner. eexists.
    split; [ apply runs_run_callbacks_splice |].
    simpl. by rewrite app_nil_r.
Qed.

Lemma absent_continuation_passes_result_through_witness :
  (exists s',
     _run_callbacks (fun _ _ => Returns VNone)
       [(None, Some 1); (Some 2, None)] (false, VInt 5) initial
     = (Normal tt, s')
     /\ scheduled s' = [Work_run_callbacks [(Some 2, None)] (false, VInt 5)]
     /\ invoked s' = [])
  /\ (exists s',
        _run_callbacks (fun _ _ => Returns VNone)
          [(Some 2, None); (Some 2, None)] (true, VInt 5) initial
        = (Normal tt, s')
        /\ scheduled s' = [Work_run_callbacks [(Some 2, None)] (true, VInt 5)]
        /\ invoked s' = []).
Proof.
  pose proof (proj1 (absent_continuation_passes_result_through
                       (fun _ _ => Returns VNone) default_dispatcher
                       (Some 2) (Some 1) [(Some 2, None)] 0 initial)
                (VInt 5) eq_refl) as (H1 & H2 & _).
  split; [ exact H1 | exact H2 ].
Defined.

(** C7: for every continuation invoked during chain walking (the error
    continuation of the entry for a failure, the success continuation for a
    success), the result scheduled for the next entry is a failure carrying
    the exception's [exc_info] if the continuation raised, and a success
    carrying the returned value if it returned; after a raise, the error
    continuation of the next entry is called with that [exc_info]. *)
Theorem continuation_outcome_is_next_result call d (head : entry) rest
    (is_error : bool) v cb fuel s :
  type_is_Effect v = false ->
  (if is_error then snd head else fst head) = Some cb ->
  (exists s',
     _run_callbacks call (head :: rest) (is_error, v) s = (Normal tt, s')
     /\ invoked s' = invoked s ++ [(cb, v)]
     /\ scheduled s'
        = scheduled s
          ++ [Work_run_callbacks rest
                match call cb v with
                | Raises e => (true, VExcInfo e)
                | Returns w => (false, w)
                end])
  /\ (forall e next rest' ec,
        call cb v = Raises e ->
        rest = next :: rest' ->
        snd next = Some ec ->
        exists s',
          trampoline_loop call d (2 + fuel)
            (Work_run_callbacks (head :: rest) (is_error, v)) s
          = trampoline_loop call d fuel
              (Work_run_callbacks rest' (guarded call ec (VExcInfo e))) s'
          /\ invoked s' = invoked s ++ [(cb, v); (ec, VExcInfo e)]).
Proof.
  intros Hv Hsel. change (select head is_error = Some cb) in Hsel. split.
  - eexists. split; [ by apply runs_run_callbacks_call |].
    simpl. split; [ reflexivity |].
    unfold guarded. by destruct (call cb v).
  - intros e next rest' ec Hraise -> Hnext.
    change (select next true = Some ec) in Hnext.
    pose proof (moves_call call d
                  (Work_run_callbacks (head :: next :: rest') (is_error, v))
                  head (next :: rest') is_error v cb eq_refl Hv Hsel)
      as Hmove.
    unfold guarded in Hmove at 1. rewrite Hraise in Hmove.
    destruct (loop_next call d (S fuel) _ _ _ s Hmove)
      as (s1 & Hloop1 & Hinv1 & _).
    destruct (loop_next call d fuel _ _ _ s1
                (moves_call call d
                   (Work_run_callbacks (next :: rest') (true, VExcInfo e))
                   next rest' true (VExcInfo e) ec eq_refl eq_refl Hnext))
      as (s2 & Hloop2 & Hinv2 & _).
    exists s2. change (2 + fuel) with (S (S fuel)).
    rewrite Hloop1, Hloop2. split; [ reflexivity |].
    by rewrite Hinv2, Hinv1, <- app_assoc.
Qed.

Lemma continuation_outcome_is_next_result_witness :
  let call := fun (c : callback) (_ : value) =>
                match c with
                | 0 => Raises (Exception "boom")
                | _ => Returns (VStr "recovered")
                end in
  exists s',
    trampoline_loop call default_dispatcher (2 + 0)
      (Work_run_callbacks [(Some 0, Some 8); (Some 9, Some 1)] (false, VInt 5))
      initial
    = trampoline_loop call default_dispatcher 0
        (Work_run_callbacks [] (guarded call 1 (VExcInfo (Exception "boom"))))
        s'
    /\ invoked s' = [(0, VInt 5); (1, VExcInfo (Exception "boom"))].
Proof.
  intros call.
  refine (proj2 (continuation_outcome_is_next_result call default_dispatcher
                   (Some 0, Some 8) [(Some 9, Some 1)] false (VInt 5) 0 0
                   initial _ _)
            (Exception "boom") (Some 9, Some 1) [] 1 _ _ _);
    reflexivity.
Defined.

(** C10: splicing is decided by an exact type test on the value of the
    current result, before any continuation of the current entry is
    selected. A value of type exactly [Effect] is spliced and performed,
    whatever the tag and whatever the chain, also when it is the value the
    dispatcher put in the box; an instance of a proper subclass is not
    spliced: it is passed to the selected continuation, or along, or left
    as the last result, like any other value. *)
Theorem splice_on_exact_Effect_type call d :
  (forall chain is_error inner s,
     exists s',
       _run_callbacks call chain (is_error, VInstance Effect_class inner) s
       = (Normal tt, s')
       /\ scheduled s'
          = scheduled s
            ++ [Work_perform
                  (Effect_with (intent_of inner) (callbacks inner ++ chain))]
       /\ invoked s' = invoked s)
  /\ (forall e is_error inner fuel s,
        resolves d (intent_of e) (is_error, VInstance Effect_class inner) ->
        exists s',
          trampoline_loop call d (2 + fuel) (Work_perform e) s
          = trampoline_loop call d fuel
              (Work_perform
                 (Effect_with (intent_of inner)
                    (callbacks inner ++ callbacks e))) s'
          /\ invoked s' = invoked s)
  /\ (forall name inner chain is_error s,
        let v := VInstance (Derived_class name) inner in
        type_is_Effect v = false
        /\ exists s',
             _run_callbacks call chain (is_error, v) s = (Normal tt, s')
             /\ match chain with
                | [] => scheduled s' = scheduled s /\ invoked s' = invoked s
                | head :: rest =>
                    match select head is_error with
                    | Some cb =>
                        scheduled s'
                        = scheduled s
                          ++ [Work_run_callbacks rest (guarded call cb v)]
                        /\ invoked s' = invoked s ++ [(cb, v)]
                    | None =>
                        scheduled s'
                        = scheduled s
                          ++ [Work_run_callbacks rest (is_error, v)]
                        /\ invoked s' = invoked s
                    end
                end).
Proof.
  split; [| split ].
  - intros chain is_error inner s. eexists.
    split; [ apply runs_run_callbacks_splice |].
    simpl. by rewrite app_nil_r.
  - intros e is_error inner fuel s Hres.
    destruct (loop_next call d (S fuel) _ _ _ s
                (moves_perform call d e _ Hres)) as (s1 & Hloop1 & Hinv1 & _).
    destruct (loop_next call d fuel _ _ _ s1
                (moves_splice call d
                   (Work_lambda e (is_error, VInstance Effect_class inner))
                   (callbacks e) is_error inner eq_refl))
      as (s2 & Hloop2 & Hinv2 & _).
    exists s2. change (2 + fuel) with (S (S fuel)).
    rewrite Hloop1, Hloop2. split; [ reflexivity |].
    by rewrite Hinv2, Hinv1, !app_nil_r.
  - intros name inner chain is_error s v. split; [ reflexivity |].
    destruct chain as [| head rest].
    + eexists. split; [ by apply runs_run_callbacks_end |].
      simpl. by rewrite !app_nil_r.
    + destruct (select head is_error) as [cb |] eqn:Hsel.
      * eexists. split; [ by apply runs_run_callbacks_call |]. by simpl.
      * eexists. split; [ by apply runs_run_callbacks_skip |].
        simpl. by rewrite app_nil_r.
Qed.

Lemma splice_on_exact_Effect_type_witness :
  let call := fun (_ : callback) (_ : value) => Returns VNone in
  let inner := Effect_with (Opaque "inner") [(Some 1, None)] in
  let e :=
    Effect_with
      (Performable "outer" [Succeed (VInstance Effect_class inner)]
         (Returns VNone))
      [(Some 2, Some 3)] in
  exists s',
    trampoline_loop call default_dispatcher 2 (Work_perform e) initial
    = trampoline_loop call default_dispatcher 0
        (Work_perform
           (Effect_with (Opaque "inner") [(Some 1, None); (Some 2, Some 3)]))
        s'
    /\ invoked s' = [].
Proof.
  intros call inner e.
  apply (proj1 (proj2 (splice_on_exact_Effect_type call default_dispatcher))
           e false inner 0 initial).
  apply resolves_default_succeed.
Defined.

(** ** Flattening *)

(** C3: for every Effect with chain entries C1..Cn, if the continuation of
    C_i returns a new Effect E' with chain D1..Dm, performing the outer
    Effect forms and performs the Effect with the intent of E' and the
    chain D1..Dm followed by C_(i+1)..Cn, and the continuations are called
    in the order C1..C_i, D1..Dm, C_(i+1)..Cn.
    First part: the splice itself, at any entry, after any result.
    Second part: chains whose entries all have both continuations; one
    continuation per entry is called, in that order.
    Third part: any chains, entries with one continuation or two, attached
    by [on_success], [on_error], [after] or [on]. The continuations called
    are those the walk of section 4.4 selects in C1..C_(i-1) for the result
    of the outer intent, then the one of C_i, then those it selects in
    D1..Dm, C_(i+1)..Cn for the result of the intent of E'; they belong to
    entries taken in that order, and the last result is left at the end.
    Fourth part: chains attached with [on_success] only, successful intents
    and continuations that return: all of C1..C_i, D1..Dm, C_(i+1)..Cn are
    called, in this order. *)
Theorem flattening_order call d inner :
  (forall head rest is_error v cb fuel s,
     type_is_Effect v = false ->
     select head is_error = Some cb ->
     call cb v = Returns (VInstance Effect_class inner) ->
     exists s',
       trampoline_loop call d (2 + fuel)
         (Work_run_callbacks (head :: rest) (is_error, v)) s
       = trampoline_loop call d fuel
           (Work_perform
              (Effect_with (intent_of inner) (callbacks inner ++ rest))) s'
       /\ invoked s' = invoked s ++ [(cb, v)])
  /\ (forall i pre ci post r0 r1,
  resolves d i r0 ->
  type_is_Effect (snd r0) = false ->
  resolves d (intent_of inner) r1 ->
  type_is_Effect (snd r1) = false ->
  Forall total (pre ++ ci :: callbacks inner ++ post) ->
  Forall (plain_entry call) (pre ++ callbacks inner ++ post) ->
  (forall c v, fires ci c -> call c v = Returns (VInstance Effect_class inner)) ->
  exists fuel s',
    perform call d fuel (Effect_with i (pre ++ ci :: post)) initial
    = (Normal Finished, s')
    /\ In (Work_perform
             (Effect_with (intent_of inner) (callbacks inner ++ post)))
          (history s')
    /\ Forall2 fires (pre ++ ci :: callbacks inner ++ post)
         (map fst (invoked s')))
  /\ (forall i pre (ci : entry) post r0 r1 tr1 (t : bool) v c tr2 r2,
        resolves d i r0 ->
        resolves d (intent_of inner) r1 ->
        spec_walk call pre r0 = Some (tr1, (t, v)) ->
        (if t then snd ci else fst ci) = Some c ->
        call c v = Returns (VInstance Effect_class inner) ->
        spec_walk call (callbacks inner ++ post) r1 = Some (tr2, r2) ->
        exists fuel s',
          perform call d fuel (Effect_with i (pre ++ ci :: post)) initial
          = (Normal Finished, s')
          /\ In (Work_perform
                   (Effect_with (intent_of inner) (callbacks inner ++ post)))
                (history s')
          /\ invoked s' = tr1 ++ (c, v) :: tr2
          /\ terminal s' = Some r2
          /\ exists sub,
               sublist sub (pre ++ ci :: callbacks inner ++ post)
               /\ Forall2 fires sub (map fst (invoked s')))
  /\ (forall i cs ci ds es v0 v1,
        resolves d i (false, v0) ->
        type_is_Effect v0 = false ->
        resolves d (intent_of inner) (false, v1) ->
        type_is_Effect v1 = false ->
        callbacks inner = map (fun c => (Some c, None)) ds ->
        (forall c u, In c (cs ++ ds ++ es) ->
           exists w, call c u = Returns w /\ type_is_Effect w = false) ->
        (forall u, call ci u = Returns (VInstance Effect_class inner)) ->
        exists fuel s',
          perform call d fuel
            (Effect_with i (map (fun c => (Some c, None)) (cs ++ ci :: es)))
            initial
          = (Normal Finished, s')
          /\ In (Work_perform
                   (Effect_with (intent_of inner)
                      (map (fun c => (Some c, None)) (ds ++ es))))
                (history s')
          /\ map fst (invoked s') = cs ++ ci :: ds ++ es).
Proof.
  split; [| split; [| split ]].
  { intros head rest is_error v cb fuel s Hv Hsel Hcb.
    pose proof (moves_call call d
                  (Work_run_callbacks (head :: rest) (is_error, v))
                  head rest is_error v cb eq_refl Hv Hsel) as Hmove.
    unfold guarded in Hmove. rewrite Hcb in Hmove.
    destruct (loop_next call d (S fuel) _ _ _ s Hmove)
      as (s1 & Hloop1 & Hinv1 & _).
    destruct (loop_next call d fuel _ _ _ s1
                (moves_splice call d
                   (Work_run_callbacks rest
                      (false, VInstance Effect_class inner))
                   rest false inner eq_refl))
      as (s2 & Hloop2 & Hinv2 & _).
    exists s2. change (2 + fuel) with (S (S fuel)).
    rewrite Hloop1, Hloop2. split; [ reflexivity |].
    by rewrite Hinv2, Hinv1, app_nil_r. }
  { intros i pre ci post r0 r1 Hres0 Hr0 Hres1 Hr1 Htot Hplain Hci.
  apply Forall_app in Htot as [Htot_pre Htot].
  apply Forall_cons in Htot as [Htot_ci Htot_tail].
  apply Forall_app in Hplain as [Hpl_pre Hpl_tail].
  set (outer := Effect_with i (pre ++ ci :: post)).
  set (spliced := Effect_with (intent_of inner) (callbacks inner ++ post)).
  set (tail := callbacks inner ++ post) in *.
  exists (S (length pre + S (S (S (length tail + 1))))).
  destruct (perform_loop call d (S (length pre + S (S (S (length tail + 1)))))
              outer initial) as (s0 & Hinv0 & Hh0 & Hperf).
  (* the dispatcher resolves the outer intent *)
  destruct (loop_next call d (length pre + S (S (S (length tail + 1))))
              _ _ _ s0 (moves_perform call d outer r0 Hres0))
    as (sA & HloopA & HinvA & HhA).
  (* C1 .. C_(i-1) *)
  destruct (walk_prefix call d pre (ci :: post) (Work_lambda outer r0) r0 sA
              (S (S (S (length tail + 1)))) eq_refl Htot_pre Hpl_pre Hr0)
    as (w1 & [t v] & tr1 & sB & HloopB & Hw1 & Hv & HinvB & Hfire1 & hB & HhB).
  simpl in Hv.
  (* C_i returns the inner Effect *)
  destruct (total_select ci t Htot_ci) as (c & Hsel & Hfire).
  pose proof (moves_call call d w1 ci post t v c Hw1 Hv Hsel) as HmoveC.
  unfold guarded in HmoveC. rewrite (Hci c v Hfire) in HmoveC.
  destruct (loop_next call d (S (S (length tail + 1))) _ _ _ sB HmoveC)
    as (sC & HloopC & HinvC & HhC).
  (* the splice *)
  destruct (loop_next call d (S (length tail + 1)) _ _ _ sC
              (moves_splice call d
                 (Work_run_callbacks post (false, VInstance Effect_class inner))
                 post false inner eq_refl))
    as (sD & HloopD & HinvD & HhD).
  change (Effect_with (intent_of inner) (callbacks inner ++ post))
    with spliced in HloopD.
  (* the dispatcher resolves the inner intent *)
  destruct (loop_next call d (length tail + 1) _ _ _ sD
              (moves_perform call d spliced r1 Hres1))
    as (sE & HloopE & HinvE & HhE).
  (* D1 .. Dm, C_(i+1) .. Cn *)
  destruct (walk_prefix call d tail [] (Work_lambda spliced r1) r1 sE 1)
    as (w2 & [t2 v2] & tr2 & sF & HloopF & Hw2 & Hv2 & HinvF & Hfire2
        & hF & HhF); eauto.
  { simpl. by rewrite app_nil_r. }
  simpl in Hv2.
  (* the chain is exhausted *)
  destruct (loop_finish call d 0 w2 [] sF (moves_end call d w2 t2 v2 Hw2 Hv2))
    as (sG & HloopG & HinvG & HhG).
  destruct (Hperf (Normal Finished) sG) as (s' & Hrun & Hinv' & Hh').
  { by rewrite HloopA, HloopB, HloopC, HloopD, HloopE, HloopF, HloopG. }
  exists s'. split; [ exact Hrun |]. split.
  - rewrite Hh', HhG, HhF, HhE.
    apply in_or_app; left. apply in_or_app; left.
    apply in_or_app; right. by left.
  - rewrite Hinv', HinvG, HinvF, HinvE, HinvD, HinvC, HinvB, HinvA, Hinv0.
    simpl. rewrite !app_nil_r, <- app_assoc, map_app. simpl.
    apply Forall2_app; [ exact Hfire1 |].
    constructor; [ exact Hfire | exact Hfire2 ]. }
  { intros i pre ci post r0 r1 tr1 t v c tr2 r2
           Hres0 Hres1 Hpre Hsel Hci Htail.
    destruct (splice_run call d inner i pre ci post r0 r1 tr1 t v c tr2 r2
                Hres0 Hres1 Hpre Hsel Hci Htail)
      as (fuel & s' & Hrun & Hin & Hinv & Hterm).
    exists fuel, s'. split; [ exact Hrun |]. split; [ exact Hin |].
    split; [ exact Hinv |]. split; [ exact Hterm |].
    destruct (spec_walk_in_order call pre r0 tr1 (t, v) Hpre)
      as (sub1 & Hsub1 & Hf1).
    destruct (spec_walk_in_order call _ r1 tr2 r2 Htail)
      as (sub2 & Hsub2 & Hf2).
    exists (sub1 ++ ci :: sub2). split.
    - apply sublist_app; [ exact Hsub1 | by apply sublist_skip ].
    - rewrite Hinv, map_app. simpl.
      apply Forall2_app; [ exact Hf1 |].
      constructor; [| exact Hf2 ].
      unfold fires. destruct t; eauto. }
  intros i cs ci ds es v0 v1 Hres0 Hv0 Hres1 Hv1 Hds Hcs Hci.
  destruct (spec_walk_successes call cs v0 Hv0) as (tr1 & v & Hpre & Hm1 & Hv).
  { intros c u Hin. apply Hcs. apply in_or_app. by left. }
  destruct (spec_walk_successes call (ds ++ es) v1 Hv1)
    as (tr2 & v2 & Htail & Hm2 & Hv2).
  { intros c u Hin. apply Hcs. apply in_or_app. by right. }
  rewrite map_app, <- Hds in Htail.
  destruct (splice_run call d inner i (map (fun c => (Some c, None)) cs)
              (Some ci, None) (map (fun c => (Some c, None)) es)
              (false, v0) (false, v1) tr1 false v ci tr2 (false, v2)
              Hres0 Hres1 Hpre eq_refl (Hci v) Htail)
    as (fuel & s' & Hrun & Hin & Hinv & _).
  exists fuel, s'. rewrite map_app. simpl. split; [ exact Hrun |].
  split.
  - rewrite map_app, <- Hds. exact Hin.
  - rewrite Hinv, map_app. simpl. by rewrite Hm1, Hm2.
Qed.

Lemma flattening_order_witness :
  let inner := Effect_with (Performable "b" [Succeed (VInt 2)] (Returns VNone))
                 [(Some 4, None); (Some 5, None)] in
  let call := fun (c : callback) (_ : value) =>
                match c with
                | 2 => Returns (VInstance Effect_class inner)
                | _ => Returns (VInt 9)
                end in
  exists fuel s',
    perform call default_dispatcher fuel
      (Effect_with (Performable "a" [Succeed (VInt 1)] (Returns VNone))
         [(Some 1, None); (Some 2, None); (Some 3, None)])
      initial
    = (Normal Finished, s')
    /\ In (Work_perform
             (Effect_with (Performable "b" [Succeed (VInt 2)] (Returns VNone))
                [(Some 4, None); (Some 5, None); (Some 3, None)]))
          (history s')
    /\ map fst (invoked s') = [1; 2; 4; 5; 3].
Proof.
  intros inner call.
  refine (proj2 (proj2 (proj2 (flattening_order call default_dispatcher
                                 inner)))
            (Performable "a" [Succeed (VInt 1)] (Returns VNone))
            [1] 2 [4; 5] [3] (VInt 1) (VInt 2) _ _ _ _ _ _ _).
  - apply resolves_default_succeed.
  - reflexivity.
  - apply resolves_default_succeed.
  - reflexivity.
  - reflexivity.
  - intros c u Hin. exists (VInt 9). split; [| reflexivity ].
    simpl in Hin.
    destruct Hin as [<- | [<- | [<- | [<- | []]]]]; reflexivity.
  - intros u. reflexivity.
Defined.

(** ** Stack depth *)

(** C4: performing any Effect, whatever its chain and whatever the
    continuations return (further Effects included), never has more than a
    fixed number of nested calls in progress, counting from the caller of
    [perform] and counting a continuation or a [perform_effect] method as
    one call: 2 + max 4 (1 + kd) when the dispatcher needs [kd] frames, 8
    with the default dispatcher. The bound holds at every point of the run,
    however long. A chain of [n] success continuations that each add 1, on
    an intent that succeeds with 0, runs to the end within [n + 2] steps
    and leaves [n]; so does the chain of 100000. *)
Theorem stack_depth_bounded call :
  (forall d kd fuel e s,
     (forall i box, bounded (d i box) kd) ->
     depth (snd (perform call d fuel e s)) = depth s
     /\ peak (snd (perform call d fuel e s))
        <= Nat.max (peak s) (depth s + (2 + Nat.max 4 (S kd))))
  /\ (forall fuel e s,
        depth (snd (perform call default_dispatcher fuel e s)) = depth s
        /\ peak (snd (perform call default_dispatcher fuel e s))
           <= Nat.max (peak s) (depth s + 8))
  /\ (forall c i n,
        (forall z, call c (VInt z) = Returns (VInt (z + 1))) ->
        resolves default_dispatcher i (false, VInt 0) ->
        exists s',
          perform call default_dispatcher (n + 2)
            (Nat.iter n (fun e => on_success e (Some c)) (Effect i)) initial
          = (Normal Finished, s')
          /\ invoked s' = map (fun k => (c, VInt (Z.of_nat k))) (seq 0 n)
          /\ terminal s' = Some (false, VInt (Z.of_nat n))
          /\ peak s' <= 8).
Proof.
  split; [| split ].
  - intros d kd fuel e s Hd. by apply bounded_perform.
  - intros fuel e s.
    apply (bounded_perform call default_dispatcher 5 fuel e
             bounded_default_dispatcher).
  - intros c i n Hc Hres. rewrite iter_on_success.
    set (e := Effect_with i (replicate n (Some c, None))).
    destruct (perform_loop call default_dispatcher (n + 2) e initial)
      as (s0 & Hinv0 & Hh0 & Hperf).
    replace (n + 2) with (S (S n + 0)) in * by lia.
    destruct (loop_next call default_dispatcher (S n + 0) _ _ _ s0
                (moves_perform call default_dispatcher e (false, VInt 0) Hres))
      as (s1 & Hloop1 & Hinv1 & _).
    destruct (walk_increments call default_dispatcher c n Hc
                (Work_lambda e (false, VInt 0)) 0%Z s1 0 eq_refl)
      as (s2 & Hloop2 & Hinv2 & Hterm).
    destruct (Hperf (Normal Finished) s2) as (s' & Hrun & Hinv' & Hh').
    { by rewrite Hloop1, Hloop2. }
    exists s'. split; [ exact Hrun |]. split; [| split ].
    + rewrite Hinv', Hinv2, Hinv1, Hinv0. simpl. apply map_ext.
      intros k. by rewrite Z.add_0_l.
    + unfold terminal in *. by rewrite Hh', Hterm, Z.add_0_l.
    + pose proof (bounded_perform call default_dispatcher 5 (S (S n + 0)) e
                    bounded_default_dispatcher initial) as [_ Hpeak].
      rewrite Hrun in Hpeak. simpl in Hpeak. lia.
Qed.

#[local] Set Warnings "-abstract-large-number".

Lemma stack_depth_bounded_witness :
  let call := fun (_ : callback) (v : value) =>
                match v with
                | VInt z => Returns (VInt (z + 1))
                | _ => Raises (TypeError "unsupported operand")
                end in
  exists s',
    perform call default_dispatcher (100000 + 2)
      (Nat.iter 100000 (fun e => on_success e (Some 0))
         (Effect (Performable "zero" [Succeed (VInt 0)] (Returns VNone))))
      initial
    = (Normal Finished, s')
    /\ invoked s' = map (fun k => (0, VInt (Z.of_nat k))) (seq 0 100000)
    /\ terminal s' = Some (false, VInt (Z.of_nat 100000))
    /\ peak s' <= 8.
Proof.
  intros call.
  apply (proj2 (proj2 (stack_depth_bounded call)) 0
           (Performable "zero" [Succeed (VInt 0)] (Returns VNone)) 100000).
  - reflexivity.
  - apply resolves_default_succeed.
Defined.

(** ** Building Effects *)

(** C8: for every Effect object and every chain-extension operation
    ([on_success], [on_error], [after], [on]), the operation returns a new
    object of class [Effect] with the same intent and the original chain
    extended by exactly one entry, held in a list that is new as well, and
    it changes no object that existed before: the original Effect still has
    its intent and its chain. *)
Theorem chain_extension_builds_new_effect (h : gmap Store.loc Store.object)
    self k eff x :
  Store.read h self = Some (k, eff) ->
  exists r extended h',
    Store.extend self x h = Some (r, h')
    /\ h !! r = None
    /\ h !! extended = None
    /\ h' !! r
       = Some (Store.Effect_object Effect_class (intent_of eff) extended)
    /\ (forall l o, h !! l = Some o -> h' !! l = Some o)
    /\ Store.read h' self = Some (k, eff)
    /\ Store.read h' r
       = Some (Effect_class,
               Effect_with (intent_of eff)
                 (callbacks eff ++ [Store.attached x])).
Proof.
  intros Hread. unfold Store.read in Hread.
  destruct (h !! self) as [[| k' i cbs] |] eqn:Hself; try discriminate.
  destruct (h !! cbs) as [[items |] |] eqn:Hcbs; try discriminate.
  injection Hread as -> <-.
  assert (Hon : forall success error,
            Store.attached x = (success, error) ->
            Store.extend self x h = Store.on self success error h).
  { intros success error Hx. destruct x; simpl in *; by simplify_eq. }
  destruct (Store.attached x) as [success error] eqn:Hx.
  destruct (on_allocates h self k i cbs items success error Hself Hcbs)
    as (r & extended & h' & Hrun & Hnew & Hkeep & Hr & Hnewl & Hext).
  exists r, extended, h'. rewrite (Hon success error eq_refl).
  split; [ exact Hrun |]. split; [ exact Hnew |]. split; [ exact Hnewl |].
  split; [ exact Hr |]. split; [ exact Hkeep |]. split.
  - unfold Store.read.
    by rewrite (Hkeep _ _ Hself), (Hkeep _ _ Hcbs).
  - unfold Store.read. by rewrite Hr, Hext.
Qed.

Lemma chain_extension_builds_new_effect_witness :
  let h : gmap Store.loc Store.object :=
    <[2%positive := Store.Effect_object Effect_class (Opaque "i") 1%positive]>
      {[1%positive := Store.List_object [(Some 0, None)]]} in
  exists r extended h',
    Store.extend 2%positive (Store.By_on_error (Some 1)) h = Some (r, h')
    /\ h !! r = None
    /\ h !! extended = None
    /\ h' !! r = Some (Store.Effect_object Effect_class (Opaque "i") extended)
    /\ (forall l o, h !! l = Some o -> h' !! l = Some o)
    /\ Store.read h' 2%positive
       = Some (Effect_class, Effect_with (Opaque "i") [(Some 0, None)])
    /\ Store.read h' r
       = Some (Effect_class,
               Effect_with (Opaque "i") [(Some 0, None); (None, Some 1)]).
Proof.
  intros h.
  apply (chain_extension_builds_new_effect h 2%positive Effect_class
           (Effect_with (Opaque "i") [(Some 0, None)])
           (Store.By_on_error (Some 1))).
  vm_compute. reflexivity.
Defined.

(** C9: for every Effect [e] and continuation [f], [e.after(f)] is
    [e.on(success=f, error=f)]: the same new object in the same store, with
    the one entry [(f, f)] added, whose continuation for a success and for
    a failure is [f]. *)
Theorem after_is_on_with_both self f :
  (forall h : gmap Store.loc Store.object,
     Store.after self f h = Store.on self f f h)
  /\ (forall e, after e f = on e f f)
  /\ (forall (h : gmap Store.loc Store.object) k eff,
        Store.read h self = Some (k, eff) ->
        exists r h',
          Store.after self f h = Some (r, h')
          /\ Store.read h' r
             = Some (Effect_class,
                     Effect_with (intent_of eff) (callbacks eff ++ [(f, f)])))
  /\ (forall is_error, select (f, f) is_error = f).
Proof.
  split; [ reflexivity |]. split; [ reflexivity |]. split.
  - intros h k eff Hread. unfold Store.read in Hread.
    destruct (h !! self) as [[| k' i cbs] |] eqn:Hself; try discriminate.
    destruct (h !! cbs) as [[items |] |] eqn:Hcbs; try discriminate.
    injection Hread as -> <-.
    destruct (on_allocates h self k i cbs items f f Hself Hcbs)
      as (r & extended & h' & Hrun & _ & _ & Hr & _ & Hext).
    exists r, h'. split; [ exact Hrun |].
    unfold Store.read. by rewrite Hr, Hext.
  - by intros [].
Qed.

Lemma after_is_on_with_both_witness :
  let h : gmap Store.loc Store.object :=
    <[2%positive := Store.Effect_object Effect_class (Opaque "i") 1%positive]>
      {[1%positive := Store.List_object []]} in
  exists r h',
    Store.after 2%positive (Some 7) h = Some (r, h')
    /\ Store.read h' r
       = Some (Effect_class, Effect_with (Opaque "i") [(Some 7, Some 7)]).
Proof.
  intros h.
  apply (proj1 (proj2 (proj2 (after_is_on_with_both 2%positive (Some 7))))
           h Effect_class (Effect_with (Opaque "i") [])).
  vm_compute. reflexivity.
Defined.

(** * More of the library *)

(** ** Helper facts *)

Lemma runs_box_calls box calls :
  exists k,
    runs (for_each (apply_box_call box) calls) (Normal tt)
      (map (fun c => _more box (delivered c)) calls) [] k.
Proof.
  induction calls as [| c calls [k IH]].
  - exists 0. apply runs_ret.
  - exists (Nat.max 2 k). simpl.
    destruct c; simpl;
      (eapply runs_eq;
       [ eapply runs_bind;
         [ first [ apply runs_succeed | apply runs_fail ] | exact IH ]
       | reflexivity .. ]).
Qed.

Lemma runs_perform_effect box calls fin :
  exists k,
    runs (perform_effect calls fin box)
      match fin with
      | Returns v => Normal v
      | Raises e => Raised e
      end
      (map (fun c => _more box (delivered c)) calls) [] k.
Proof.
  destruct (runs_box_calls box calls) as [k Hk].
  exists (S (Nat.max k 0)). unfold perform_effect.
  apply runs_frame. eapply runs_eq.
  - eapply runs_bind; [ exact Hk |].
    destruct fin; [ apply runs_ret | apply runs_raise ].
  - by rewrite app_nil_r.
  - reflexivity.
  - by destruct fin.
Qed.

Lemma runs_default_performable box name calls fin :
  exists k,
    runs (default_dispatcher (Performable name calls fin) box)
      match fin with
      | Returns v => Normal v
      | Raises e => Raised e
      end
      (map (fun c => _more box (delivered c)) calls) [] k.
Proof.
  destruct (runs_perform_effect box calls fin) as [k Hk].
  exists (S (S k)). unfold default_dispatcher, dispatch_method.
  by do 2 apply runs_frame.
Qed.

(** What [_perform] makes of the way its dispatcher call went. *)
Lemma moves_perform_any call d e res rs :
  (exists k, runs (d (intent_of e) (Box (Work_lambda e))) res
               (map (Work_lambda e) rs) [] k) ->
  moves call d (Work_perform e)
    match res with
    | Normal _ => Normal tt
    | Raised x => Raised x
    end
    (map (Work_lambda e) rs) [].
Proof.
  intros [k Hk]. unfold moves. simpl. unfold _perform.
  destruct res as [v | x]; eexists.
  - eapply runs_eq.
    + apply runs_frame. eapply runs_bind; [ apply runs_frame, runs_ret |].
      eapply runs_bind; [ exact Hk | apply runs_ret ].
    + simpl. by rewrite app_nil_r.
    + reflexivity.
    + reflexivity.
  - eapply runs_eq.
    + apply runs_frame. eapply runs_bind; [ apply runs_frame, runs_ret |].
      apply runs_bind_raised. exact Hk.
    + reflexivity.
    + reflexivity.
    + reflexivity.
Qed.

Lemma perform_from_initial call d fuel e r s1 :
  (forall s0, invoked s0 = [] -> history s0 = [] ->
     exists s1', trampoline_loop call d fuel (Work_perform e) s0 = (r, s1')
                 /\ invoked s1' = invoked s1 /\ history s1' = history s1) ->
  exists s', perform call d fuel e initial = (r, s')
             /\ invoked s' = invoked s1 /\ history s' = history s1.
Proof.
  intros H.
  destruct (perform_loop call d fuel e initial) as (s0 & Hinv0 & Hh0 & Hperf).
  destruct (H s0 Hinv0 Hh0) as (s1' & Hloop & Hinv & Hh).
  destruct (Hperf _ _ Hloop) as (s' & Hrun & Hinv' & Hh').
  exists s'. split; [ exact Hrun |]. by rewrite Hinv', Hh'.
Qed.

(** ** Running a whole chain *)

(** X1: when every entry has both continuations and no continuation returns
    an Effect, performing calls exactly one continuation of each entry, in
    the order the entries were attached, and then stops with the chain
    exhausted. *)
Theorem continuations_run_in_attachment_order call d i chain r0 fuel :
  resolves d i r0 ->
  type_is_Effect (snd r0) = false ->
  Forall total chain ->
  Forall (plain_entry call) chain ->
  exists s',
    perform call d (length chain + 2 + fuel) (Effect_with i chain) initial
    = (Normal Finished, s')
    /\ Forall2 fires chain (map fst (invoked s'))
    /\ exists r, terminal s' = Some r.
Proof.
  intros Hres Hr0 Htot Hplain.
  set (e := Effect_with i chain).
  destruct (perform_loop call d (length chain + 2 + fuel) e initial)
    as (s0 & Hinv0 & Hh0 & Hperf).
  replace (length chain + 2 + fuel) with (S (length chain + S fuel)) in *
    by lia.
  destruct (loop_next call d (length chain + S fuel) _ _ _ s0
              (moves_perform call d e r0 Hres)) as (s1 & Hloop1 & Hinv1 & _).
  destruct (walk_prefix call d chain [] (Work_lambda e r0) r0 s1 (S fuel))
    as (w2 & [t2 v2] & tr & s2 & Hloop2 & Hw2 & Hv2 & Hinv2 & Hfires & _);
    eauto.
  { simpl. by rewrite app_nil_r. }
  simpl in Hv2.
  destruct (loop_finish call d fuel w2 [] s2
              (moves_end call d w2 t2 v2 Hw2 Hv2))
    as (s3 & Hloop3 & Hinv3 & Hh3).
  destruct (Hperf (Normal Finished) s3) as (s' & Hrun & Hinv' & Hh').
  { by rewrite Hloop1, Hloop2, Hloop3. }
  exists s'. split; [ exact Hrun |]. split.
  - rewrite Hinv', Hinv3, Hinv2, Hinv1, Hinv0. simpl.
    by rewrite !app_nil_r.
  - exists (t2, v2). unfold terminal. rewrite Hh'. by eapply terminal_snoc.
Qed.

Lemma continuations_run_in_attachment_order_witness :
  exists s',
    perform (fun c _ => if Nat.even c then Returns (VInt 1)
                        else Raises (Exception "e"))
      default_dispatcher (2 + 2 + 0)
      (Effect_with (Performable "p" [Succeed VNone] (Returns VNone))
         [(Some 0, Some 1); (Some 3, Some 2)])
      initial
    = (Normal Finished, s')
    /\ Forall2 fires [(Some 0, Some 1); (Some 3, Some 2)]
         (map fst (invoked s'))
    /\ exists r, terminal s' = Some r.
Proof.
  apply (continuations_run_in_attachment_order
           (fun c _ => if Nat.even c then Returns (VInt 1)
                       else Raises (Exception "e"))
           default_dispatcher
           (Performable "p" [Succeed VNone] (Returns VNone))
           [(Some 0, Some 1); (Some 3, Some 2)] (false, VNone) 0).
  - apply resolves_default_succeed.
  - reflexivity.
  - repeat (constructor; [ split; simpl; eauto |]). constructor.
  - repeat (constructor;
            [ intros c [Hc | Hc] v w Hw; simpl in Hc; simplify_eq;
              simpl in Hw; by simplify_eq |]).
    constructor.
Defined.

Lemma walk_threaded call d cs : forall w v s fuel,
  Forall (fun p : callback * option callback =>
            forall x, exists y, call (fst p) x = Returns y
                                /\ type_is_Effect y = false) cs ->
  type_is_Effect v = false ->
  walked w
  = Some (map (fun p : callback * option callback => (Some (fst p), snd p)) cs,
          (false, v)) ->
  exists s',
    trampoline_loop call d (S (length cs) + fuel) w s = (Normal Finished, s')
    /\ invoked s' = invoked s ++ threaded_calls call (map fst cs) v
    /\ terminal s' = Some (false, threaded call (map fst cs) v)
    /\ type_is_Effect (threaded call (map fst cs) v) = false.
Proof.
  induction cs as [| [c err] cs IH]; intros w v s fuel Hall Hv Hw.
  - destruct (loop_finish call d fuel w [] s (moves_end call d w false v Hw Hv))
      as (s' & Hloop & Hinv & Hh).
    exists s'. split; [ exact Hloop |]. split; [ exact Hinv |]. split.
    + by eapply terminal_snoc.
    + exact Hv.
  - inversion Hall as [| ? ? Hc Hcs]; subst. simpl in Hc, Hw.
    destruct (Hc v) as (y & Hy & Hplain).
    pose proof (moves_call call d w (Some c, err) _ false v c Hw Hv eq_refl)
      as Hmove.
    unfold guarded in Hmove. rewrite Hy in Hmove.
    destruct (loop_next call d (S (length cs) + fuel) w _ _ s Hmove)
      as (s1 & Hloop1 & Hinv1 & _).
    destruct (IH (Work_run_callbacks
                    (map (fun p : callback * option callback =>
                            (Some (fst p), snd p)) cs) (false, y))
                y s1 fuel Hcs Hplain eq_refl)
      as (s' & Hloop' & Hinv' & Hterm & Hfin).
    exists s'.
    change (S (length ((c, err) :: cs)) + fuel)
      with (S (S (length cs) + fuel)).
    rewrite Hloop1, Hloop'. simpl. rewrite Hy.
    split; [ reflexivity |]. split; [| split; [ exact Hterm | exact Hfin ]].
    by rewrite Hinv', Hinv1, <- app_assoc.
Qed.

(** X2: success continuations compose. When the intent succeeds with [v]
    and every entry has a success continuation that returns a value that is
    not an Effect, performing applies them from first to last, each to what
    the one before returned, calls no error continuation, and leaves the
    last value as a success. *)
Theorem success_continuations_compose call d i cs v fuel :
  resolves d i (false, v) ->
  type_is_Effect v = false ->
  Forall (fun p : callback * option callback =>
            forall x, exists y, call (fst p) x = Returns y
                                /\ type_is_Effect y = false) cs ->
  exists s',
    perform call d (length cs + 2 + fuel)
      (fold_left (fun e p => on e (Some (fst p)) (snd p)) cs (Effect i))
      initial
    = (Normal Finished, s')
    /\ invoked s' = threaded_calls call (map fst cs) v
    /\ terminal s' = Some (false, threaded call (map fst cs) v).
Proof.
  intros Hres Hv Hall.
  assert (Hfold : forall base,
            fold_left (fun e p => on e (Some (fst p)) (snd p)) cs base
            = Effect_with (intent_of base)
                (callbacks base
                 ++ map (fun p : callback * option callback =>
                           (Some (fst p), snd p)) cs)).
  { clear. induction cs as [| p cs IH]; intros base; simpl.
    - rewrite app_nil_r. by destruct base.
    - rewrite IH. simpl. by rewrite <- app_assoc. }
  rewrite Hfold. simpl.
  set (e := Effect_with i _).
  destruct (perform_loop call d (length cs + 2 + fuel) e initial)
    as (s0 & Hinv0 & Hh0 & Hperf).
  replace (length cs + 2 + fuel) with (S (S (length cs) + fuel)) in * by lia.
  destruct (loop_next call d (S (length cs) + fuel) _ _ _ s0
              (moves_perform call d e (false, v) Hres))
    as (s1 & Hloop1 & Hinv1 & _).
  destruct (walk_threaded call d cs (Work_lambda e (false, v)) v s1 fuel
              Hall Hv eq_refl) as (s2 & Hloop2 & Hinv2 & Hterm & _).
  destruct (Hperf (Normal Finished) s2) as (s' & Hrun & Hinv' & Hh').
  { by rewrite Hloop1, Hloop2. }
  exists s'. split; [ exact Hrun |]. split.
  - by rewrite Hinv', Hinv2, Hinv1, Hinv0.
  - unfold terminal in *. by rewrite Hh'.
Qed.

Lemma success_continuations_compose_witness :
  let call := fun (c : callback) (v : value) =>
                match v with
                | VInt z => Returns (VInt (z * 2 + Z.of_nat c))
                | _ => Returns VNone
                end in
  exists s',
    perform call default_dispatcher (2 + 2 + 0)
      (fold_left (fun e p => on e (Some (fst p)) (snd p))
         [(1, None); (0, Some 7)]
         (Effect (Performable "p" [Succeed (VInt 5)] (Returns VNone))))
      initial
    = (Normal Finished, s')
    /\ invoked s' = threaded_calls call (map fst [(1, None); (0, Some 7)]) (VInt 5)
    /\ terminal s'
       = Some (false, threaded call (map fst [(1, None); (0, Some 7)]) (VInt 5)).
Proof.
  intros call.
  apply (success_continuations_compose call default_dispatcher
           (Performable "p" [Succeed (VInt 5)] (Returns VNone))
           [(1, None); (0, Some 7)] (VInt 5) 0).
  - apply resolves_default_succeed.
  - reflexivity.
  - repeat (constructor; [ intros x; destruct x; simpl; eauto |]).
    constructor.
Defined.

(** ** Recovering from a failure *)




(** ** What the default dispatcher does with a [perform_effect] method *)

(** X4: an exception raised by an intent's [perform_effect] is not turned
    into a failure of the box by the default dispatcher: it leaves
    [perform], and no continuation is called, even when the method had
    resolved the box before raising. *)
Theorem performer_exception_leaves_perform call name calls x chain fuel :
  exists s',
    perform call default_dispatcher (S fuel)
      (Effect_with (Performable name calls (Raises x)) chain) initial
    = (Raised x, s')
    /\ invoked s' = [].
Proof.
  set (e := Effect_with (Performable name calls (Raises x)) chain).
  destruct (perform_loop call default_dispatcher (S fuel) e initial)
    as (s0 & Hinv0 & Hh0 & Hperf).
  destruct (runs_default_performable (Box (Work_lambda e)) name calls
              (Raises x)) as [k Hk].
  pose proof (moves_perform_any call default_dispatcher e (Raised x)
                (map delivered calls)) as Hmove.
  simpl in Hmove. rewrite map_map in Hmove.
  destruct (loop_raise call default_dispatcher fuel _ _ _ _ s0
              (Hmove (ex_intro _ k Hk))) as (s1 & Hloop & Hinv1 & _).
  destruct (Hperf _ _ Hloop) as (s' & Hrun & Hinv' & _).
  exists s'. split; [ exact Hrun |].
  by rewrite Hinv', Hinv1, Hinv0.
Qed.

(** X5: the default dispatcher ignores what [perform_effect] returns. A
    method that returns without calling the box leaves the Effect
    unresolved: [perform] returns, no continuation is called and the chain
    is never walked. *)
Theorem returned_value_is_not_a_result call name v chain fuel :
  exists s',
    perform call default_dispatcher (S fuel)
      (Effect_with (Performable name [] (Returns v)) chain) initial
    = (Normal Finished, s')
    /\ invoked s' = []
    /\ history s'
       = [Work_perform (Effect_with (Performable name [] (Returns v)) chain)].
Proof.
  set (e := Effect_with (Performable name [] (Returns v)) chain).
  destruct (perform_loop call default_dispatcher (S fuel) e initial)
    as (s0 & Hinv0 & Hh0 & Hperf).
  destruct (runs_default_performable (Box (Work_lambda e)) name []
              (Returns v)) as [k Hk].
  pose proof (moves_perform_any call default_dispatcher e (Normal v) []
                (ex_intro _ k Hk)) as Hmove.
  destruct (loop_finish call default_dispatcher fuel _ _ s0 Hmove)
    as (s1 & Hloop & Hinv1 & Hh1).
  destruct (Hperf _ _ Hloop) as (s' & Hrun & Hinv' & Hh').
  exists s'. split; [ exact Hrun |]. split.
  - by rewrite Hinv', Hinv1, Hinv0.
  - by rewrite Hh', Hh1, Hh0.
Qed.

(** X6: a method made by [synchronous_performer] resolves the box exactly
    once and never raises: with the value its function returns, as a
    success, or with the [exc_info] of what the function raises, as a
    failure. On the box it does what a [perform_effect] making that one
    call does. *)
Theorem synchronous_performer_resolves_once func box :
  let r := match func with
           | Returns v => (false, v)
           | Raises x => (true, VExcInfo x)
           end in
  (exists k,
     runs (synchronous_performer func box) (Normal VNone) [_more box r] [] k)
  /\ (exists k,
        runs (perform_effect
                [match func with
                 | Returns v => Succeed v
                 | Raises x => Fail (VExcInfo x)
                 end]
                (Returns VNone) box)
             (Normal VNone) [_more box r] [] k).
Proof.
  split; exists 3.
  - unfold synchronous_performer. destruct func as [v | x].
    + eapply runs_eq.
      * apply runs_frame. eapply runs_bind; [| apply runs_ret ].
        eapply runs_try_normal; [| apply runs_ret ].
        eapply runs_bind; [ apply runs_frame, runs_ret | apply runs_succeed ].
      * reflexivity.
      * reflexivity.
      * reflexivity.
    + eapply runs_eq.
      * apply runs_frame. eapply runs_bind; [| apply runs_ret ].
        eapply runs_try_raised; [| apply runs_fail ].
        apply runs_bind_raised. apply runs_frame, runs_raise.
      * reflexivity.
      * reflexivity.
      * reflexivity.
  - unfold perform_effect. destruct func; simpl; derive_runs.
Qed.

(** ** Heads and tails *)

Lemma iter_conses_imap {A} (l : list A) :
  _iter_conses l = Some (imap (fun i x => (x, drop (S i) l)) l).
Proof.
  unfold _iter_conses. apply mapM_Some.
  apply Forall2_same_length_lookup. split.
  - by rewrite length_seq, length_imap.
  - intros i j y Hj Hy. apply lookup_seq in Hj as [-> Hi]. simpl.
    rewrite list_lookup_imap in Hy.
    destruct (l !! i) as [x |]; simpl in Hy; by simplify_eq.
Qed.

(** X7: [_iter_conses] never fails on an index and yields one pair per
    element, in order: the [i]-th pair is the [i]-th element with everything
    after it, so the elements before it, the head and the tail make up the
    sequence again. On an empty sequence it yields nothing. *)
Theorem iter_conses_heads_and_tails {A} (l : list A) :
  exists cs,
    _iter_conses l = Some cs
    /\ length cs = length l
    /\ map fst cs = l
    /\ (forall i h t, cs !! i = Some (h, t) ->
          l !! i = Some h /\ t = drop (S i) l /\ take i l ++ h :: t = l)
    /\ (l = [] -> cs = []).
Proof.
  exists (imap (fun i x => (x, drop (S i) l)) l).
  split; [ apply iter_conses_imap |]. split; [ apply length_imap |].
  split; [| split ].
  - apply list_eq. intros i.
    rewrite list_lookup_fmap, list_lookup_imap.
    by destruct (l !! i).
  - intros i h t Hi. rewrite list_lookup_imap in Hi.
    destruct (l !! i) as [x |] eqn:Hx; simpl in Hi; simplify_eq.
    split; [ reflexivity |]. split; [ reflexivity |].
    by apply take_drop_middle.
  - by intros ->.
Qed.

(** ** Parallel effects *)

Lemma intent_of_fold_on xs base :
  intent_of (fold_left (fun e (x : entry) => on e (fst x) (snd x)) xs base)
  = intent_of base.
Proof.
  revert base. induction xs as [| x xs IH]; intros base; simpl;
    [ reflexivity |].
  by rewrite IH.
Qed.

(** X8: the default dispatcher cannot perform what [parallel] builds:
    [ParallelEffects] has no [perform_effect], so performing the Effect,
    whatever continuations were attached to it, raises
    [NoEffectHandlerError] naming the [ParallelEffects] intent, and calls
    none of them. *)
Theorem parallel_is_not_performed_by_default call effects xs fuel :
  exists s',
    perform call default_dispatcher (S fuel)
      (fold_left (fun e (x : entry) => on e (fst x) (snd x)) xs
         (parallel effects))
      initial
    = (Raised (NoEffectHandlerError (ParallelEffects effects)), s')
    /\ invoked s' = [].
Proof.
  set (e := fold_left _ xs _).
  assert (Hi : intent_of e = ParallelEffects effects)
    by apply intent_of_fold_on.
  destruct (perform_loop call default_dispatcher (S fuel) e initial)
    as (s0 & Hinv0 & Hh0 & Hperf).
  pose proof (moves_perform_any call default_dispatcher e
                (Raised (NoEffectHandlerError (ParallelEffects effects))) [])
    as Hmove.
  assert (Hd : exists k,
             runs (default_dispatcher (intent_of e) (Box (Work_lambda e)))
               (Raised (NoEffectHandlerError (ParallelEffects effects)))
               (map (Work_lambda e) []) [] k).
  { exists 2. rewrite Hi. by apply runs_default_no_handler. }
  destruct (loop_raise call default_dispatcher fuel _ _ _ _ s0 (Hmove Hd))
    as (s1 & Hloop & Hinv1 & _).
  destruct (Hperf _ _ Hloop) as (s' & Hrun & Hinv' & _).
  exists s'. split; [ exact Hrun |].
  by rewrite Hinv', Hinv1, Hinv0.
Qed.

(** ** One more entry at the end of the chain *)

Lemma moves_det call d w r sch inv r' sch' inv' :
  moves call d w r sch inv -> moves call d w r' sch' inv' ->
  r = r' /\ sch = sch' /\ inv = inv'.
Proof.
  intros [k Hk] [k' Hk']. specialize (Hk initial). rewrite Hk' in Hk.
  unfold after_ in Hk. simpl in Hk. by simplify_eq.
Qed.

Lemma uniform_default : uniform default_dispatcher.
Proof.
  intros i. destruct i as [name | name calls fin | effects].
  - exists (Raised (NoEffectHandlerError (Opaque name))), []. intros box.
    exists 2. by apply runs_default_no_handler.
  - exists (match fin with Returns v => Normal v | Raises e => Raised e end),
      (map delivered calls).
    intros box. rewrite map_map. apply runs_default_performable.
  - exists (Raised (NoEffectHandlerError (ParallelEffects effects))), [].
    intros box. exists 2. by apply runs_default_no_handler.
Qed.

Lemma moves_walker call d w chain r :
  walked w = Some (chain, r) ->
  exists sch inv, moves call d w (Normal tt) sch inv.
Proof.
  intros Hw. destruct r as [t v].
  destruct (type_is_Effect v) eqn:Hv.
  - destruct v as [| | | | | [] inner |]; try discriminate Hv.
    eexists _, _. by eapply moves_splice.
  - destruct chain as [| head rest].
    + eexists _, _. by eapply moves_end.
    + destruct (select head t) as [cb |] eqn:Hsel.
      * eexists _, _. by eapply moves_call.
      * eexists _, _. by eapply moves_skip.
Qed.

Lemma moves_any call d w :
  uniform d -> exists res sch inv, moves call d w res sch inv.
Proof.
  intros Hd. destruct w as [e | chain r | e r].
  - destruct (Hd (intent_of e)) as (res & rs & Hbox).
    eexists _, _, _.
    apply (moves_perform_any call d e res rs), (Hbox (Box (Work_lambda e))).
  - exists (Normal tt). by eapply moves_walker.
  - exists (Normal tt). by eapply moves_walker.
Qed.

Lemma walked_with_last_entry success error w chain r :
  walked w = Some (chain, r) ->
  walked (with_last_entry success error w)
  = Some (chain ++ [(success, error)], r).
Proof. destruct w; simpl; intros; by simplify_eq. Qed.

Lemma moves_with_last_entry call d success error w w' l inv :
  uniform d ->
  moves call d w (Normal tt) (w' :: l) inv ->
  moves call d (with_last_entry success error w) (Normal tt)
    (map (with_last_entry success error) (w' :: l)) inv.
Proof.
  intros Hd Hmove.
  destruct (walked w) as [[chain [t v]] |] eqn:Hw.
  - pose proof (walked_with_last_entry success error w _ _ Hw) as Hw'.
    destruct (type_is_Effect v) eqn:Hv.
    + destruct v as [| | | | | [] inner |]; try discriminate Hv.
      destruct (moves_det _ _ _ _ _ _ _ _ _ Hmove
                  (moves_splice call d w chain t inner Hw)) as (_ & Hs & ->).
      rewrite Hs. simpl. unfold on. simpl. rewrite <- app_assoc.
      by eapply moves_splice.
    + destruct chain as [| head rest].
      * destruct (moves_det _ _ _ _ _ _ _ _ _ Hmove
                    (moves_end call d w t v Hw Hv)) as (_ & Hs & _).
        discriminate Hs.
      * destruct (select head t) as [cb |] eqn:Hsel.
        -- destruct (moves_det _ _ _ _ _ _ _ _ _ Hmove
                       (moves_call call d w head rest t v cb Hw Hv Hsel))
             as (_ & Hs & ->).
           rewrite Hs. simpl. by eapply moves_call.
        -- destruct (moves_det _ _ _ _ _ _ _ _ _ Hmove
                       (moves_skip call d w head rest t v Hw Hv Hsel))
             as (_ & Hs & ->).
           rewrite Hs. simpl. by eapply moves_skip.
  - destruct w as [e | |]; try discriminate Hw.
    destruct (Hd (intent_of e)) as (res & rs & Hbox).
    pose proof (moves_perform_any call d e res rs
                  (Hbox (Box (Work_lambda e)))) as Hmove0.
    destruct (moves_det _ _ _ _ _ _ _ _ _ Hmove Hmove0) as (Hres & Hs & ->).
    rewrite Hs, Hres, map_map. simpl.
    apply (moves_perform_any call d (on e success error) res rs),
      (Hbox (Box (Work_lambda (on e success error)))).
Qed.

Lemma loop_with_last_entry call d success error :
  uniform d ->
  forall fuel w sa sa' t v,
    trampoline_loop call d fuel w sa = (Normal Finished, sa') ->
    terminal sa' = Some (t, v) ->
    exists tr,
      invoked sa' = invoked sa ++ tr
      /\ type_is_Effect v = false
      /\ forall sb, exists extra w2 sb',
           trampoline_loop call d (S fuel) (with_last_entry success error w) sb
           = trampoline_loop call d (2 + extra) w2 sb'
           /\ walked w2 = Some ([(success, error)], (t, v))
           /\ invoked sb' = invoked sb ++ tr.
Proof.
  intros Hd. induction fuel as [| fuel IH]; intros w sa sa' t v Hloop Hterm.
  - discriminate Hloop.
  - destruct (moves_any call d w Hd) as (res & sch & inv & Hmove).
    pose proof Hmove as [k Hk]. simpl in Hloop. rewrite Hk in Hloop.
    destruct res as [[] | x]; [| discriminate Hloop ].
    simpl in Hloop. destruct sch as [| w' [| w'' l]].
    + injection Hloop as <-. unfold terminal in Hterm. simpl in Hterm.
      rewrite last_snoc in Hterm.
      destruct (walked w) as [[[| head rest] [t0 v0]] |] eqn:Hw;
        try discriminate Hterm.
      injection Hterm as -> ->.
      assert (Hv : type_is_Effect v = false).
      { destruct (type_is_Effect v) eqn:Hv; [| reflexivity ].
        destruct v as [| | | | | [] inner |]; try discriminate Hv.
        destruct (moves_det _ _ _ _ _ _ _ _ _ Hmove
                    (moves_splice call d w [] t inner Hw)) as (_ & Hs & _).
        discriminate Hs. }
      destruct (moves_det _ _ _ _ _ _ _ _ _ Hmove
                  (moves_end call d w t v Hw Hv)) as (_ & _ & ->).
      exists []. split; [ simpl; by rewrite !app_nil_r |].
      split; [ exact Hv |].
      intros sb. exists fuel, (with_last_entry success error w), sb.
      split; [ reflexivity |]. split.
      * exact (walked_with_last_entry success error w _ _ Hw).
      * by rewrite app_nil_r.
    + destruct (IH w' _ sa' t v Hloop Hterm) as (tr & Hinv & Hv & Hsim).
      exists (inv ++ tr). split.
      { rewrite Hinv. simpl. by rewrite <- app_assoc. }
      split; [ exact Hv |].
      intros sb.
      destruct (loop_next call d (S fuel) _ _ _ sb
                  (moves_with_last_entry call d success error w w' [] inv
                     Hd Hmove)) as (sb1 & Hloopb & Hinvb & _).
      destruct (Hsim sb1) as (extra & w2 & sb' & Hloop2 & Hw2 & Hinv2).
      exists extra, w2, sb'. split; [ by rewrite Hloopb, Hloop2 |].
      split; [ exact Hw2 |].
      by rewrite Hinv2, Hinvb, <- app_assoc.
    + discriminate Hloop.
Qed.

Lemma perform_as_loop call d fuel e :
  exists s0, invoked s0 = [] /\ history s0 = [] /\
    forall r s',
      perform call d fuel e initial = (r, s') <->
      exists s1, trampoline_loop call d fuel (Work_perform e) s0 = (r, s1)
                 /\ s' = leave 0 (leave 1 s1).
Proof.
  exists (enter (enter initial)). split; [ done |]. split; [ done |].
  intros r s'. unfold perform, trampoline, frame. simpl.
  destruct (trampoline_loop call d fuel (Work_perform e) _) as [r1 s1].
  split.
  - intros H. injection H as <- <-. by exists s1.
  - intros (s2 & H & ->). by injection H as -> ->.
Qed.

(** X10: [e.on(success, error)] attaches to the end of what [e] does. If
    performing [e] stops with the chain exhausted and the result [(t, v)]
    left, performing the extended Effect calls the same continuations with
    the same arguments and then hands [v] to the added continuation for
    [t]; when there is none for [t], nothing more is called and [(t, v)] is
    left as before. The dispatcher is one whose use of the box does not
    depend on the box, as the default dispatcher's. *)
Theorem on_attaches_to_the_terminal_result call d e success error fuel s1
    t v :
  uniform d ->
  perform call d fuel e initial = (Normal Finished, s1) ->
  terminal s1 = Some (t, v) ->
  match select (success, error) t with
  | None =>
      exists s2,
        perform call d (S fuel) (on e success error) initial
        = (Normal Finished, s2)
        /\ invoked s2 = invoked s1
        /\ terminal s2 = Some (t, v)
  | Some c =>
      type_is_Effect (snd (guarded call c v)) = false ->
      exists s2,
        perform call d (S fuel) (on e success error) initial
        = (Normal Finished, s2)
        /\ invoked s2 = invoked s1 ++ [(c, v)]
        /\ terminal s2 = Some (guarded call c v)
  end.
Proof.
  intros Hd Hrun Hterm.
  destruct (perform_as_loop call d fuel e) as (sa & Hinva & Hha & Hpa).
  destruct (perform_as_loop call d (S fuel) (on e success error))
    as (sb & Hinvb & Hhb & Hpb).
  apply Hpa in Hrun as (sa' & Hloopa & ->).
  change (terminal sa' = Some (t, v)) in Hterm.
  destruct (loop_with_last_entry call d success error Hd fuel
              (Work_perform e) sa sa' t v Hloopa Hterm)
    as (tr & Hinv & Hv & Hsim).
  destruct (Hsim sb) as (extra & w2 & sb' & Hloopb & Hw2 & Hinvb').
  change (with_last_entry success error (Work_perform e))
    with (Work_perform (on e success error)) in Hloopb.
  change (2 + extra) with (S (S extra)) in Hloopb.
  simpl invoked. rewrite Hinv, Hinva. rewrite Hinvb in Hinvb'. simpl in Hinvb'.
  destruct (select (success, error) t) as [c |] eqn:Hsel.
  - intros Hplain. destruct (guarded call c v) as [t' v'] eqn:Hg.
    simpl in Hplain.
    pose proof (moves_call call d w2 (success, error) [] t v c Hw2 Hv Hsel)
      as Hmove.
    rewrite Hg in Hmove.
    destruct (loop_next call d (S extra) _ _ _ sb' Hmove)
      as (sb1 & Hloop1 & Hinv1 & _).
    destruct (loop_finish call d extra (Work_run_callbacks [] (t', v')) []
                sb1 (moves_end call d (Work_run_callbacks [] (t', v')) t' v'
                       eq_refl Hplain))
      as (sb2 & Hloop2 & Hinv2 & Hh2).
    exists (leave 0 (leave 1 sb2)). split.
    + apply Hpb. exists sb2. split; [| reflexivity ].
      by rewrite Hloopb, Hloop1, Hloop2.
    + split.
      * simpl. by rewrite Hinv2, Hinv1, Hinvb', app_nil_r.
      * change (terminal sb2 = Some (t', v')).
        eapply (terminal_snoc sb1 (Work_run_callbacks [] (t', v')));
          [ reflexivity | exact Hh2 ].
  - destruct (loop_next call d (S extra) _ _ _ sb'
                (moves_skip call d w2 (success, error) [] t v Hw2 Hv Hsel))
      as (sb1 & Hloop1 & Hinv1 & _).
    destruct (loop_finish call d extra (Work_run_callbacks [] (t, v)) []
                sb1 (moves_end call d (Work_run_callbacks [] (t, v)) t v
                       eq_refl Hv))
      as (sb2 & Hloop2 & Hinv2 & Hh2).
    exists (leave 0 (leave 1 sb2)). split.
    + apply Hpb. exists sb2. split; [| reflexivity ].
      by rewrite Hloopb, Hloop1, Hloop2.
    + split.
      * simpl. by rewrite Hinv2, Hinv1, Hinvb', !app_nil_r.
      * change (terminal sb2 = Some (t, v)).
        eapply (terminal_snoc sb1 (Work_run_callbacks [] (t, v)));
          [ reflexivity | exact Hh2 ].
Qed.

Lemma on_attaches_to_the_terminal_result_witness :
  let call := fun (_ : callback) (_ : value) => Returns (VInt 1) in
  let e := Effect (Performable "p" [Fail VNone] (Returns VNone)) in
  exists s2,
    perform call default_dispatcher 3 (on e None (Some 0)) initial
    = (Normal Finished, s2)
    /\ invoked s2
       = invoked (snd (perform call default_dispatcher 2 e initial))
         ++ [(0, VNone)]
    /\ terminal s2 = Some (guarded call 0 VNone).
Proof.
  intros call e.
  refine (on_attaches_to_the_terminal_result call default_dispatcher e None
            (Some 0) 2 (snd (perform call default_dispatcher 2 e initial))
            true VNone uniform_default _ _ _).
  - vm_compute. reflexivity.
  - vm_compute. reflexivity.
  - reflexivity.
Defined.

(** ** What a step never does *)

(** X11: [_run_callbacks] never raises, whatever the continuation it calls
    does; in one call it calls at most one continuation and schedules at
    most one next call. *)
Theorem run_callbacks_never_raises call chain r s :
  exists s',
    _run_callbacks call chain r s = (Normal tt, s')
    /\ (exists sch, scheduled s' = scheduled s ++ sch /\ length sch <= 1)
    /\ (exists inv, invoked s' = invoked s ++ inv /\ length inv <= 1).
Proof.
  assert (Hruns : forall sch inv k,
            runs (_run_callbacks call chain r) (Normal tt) sch inv k ->
            length sch <= 1 -> length inv <= 1 ->
            exists s',
              _run_callbacks call chain r s = (Normal tt, s')
              /\ (exists sch, scheduled s' = scheduled s ++ sch
                               /\ length sch <= 1)
              /\ (exists inv, invoked s' = invoked s ++ inv
                               /\ length inv <= 1)).
  { intros sch inv k Hk Hsch Hinv. exists (after_ s sch inv k).
    split; [ apply Hk |]. split; eexists; (split; [ reflexivity | done ]). }
  destruct r as [t v]. destruct (type_is_Effect v) eqn:Hv.
  - destruct v as [| | | | | [] inner |]; try discriminate Hv.
    eapply Hruns; [ apply runs_run_callbacks_splice | simpl; lia .. ].
  - destruct chain as [| head rest].
    + eapply Hruns; [ by apply runs_run_callbacks_end | simpl; lia .. ].
    + destruct (select head t) as [cb |] eqn:Hsel.
      * eapply Hruns; [ by apply runs_run_callbacks_call | simpl; lia .. ].
      * eapply Hruns; [ by apply runs_run_callbacks_skip | simpl; lia .. ].
Qed.

Lemma loop_never_raises call d :
  (forall i box s, exists v s', d i box s = (Normal v, s')) ->
  forall fuel w s, exists verdict s',
    trampoline_loop call d fuel w s = (Normal verdict, s').
Proof.
  intros Hd. induction fuel as [| fuel IH]; intros w s.
  - by exists Out_of_fuel, s.
  - simpl.
    assert (Hstep : forall s0, exists s1, step call d w s0 = (Normal tt, s1)).
    { intros s0. destruct w as [e | chain r | e r].
      - simpl. unfold _perform, frame, bind, ret. simpl.
        destruct (Hd (intent_of e) (Box (Work_lambda e))
                    (enter (leave (S (depth s0)) (enter (enter s0)))))
          as (v & s' & Hv).
        match goal with
        | |- context [d ?i ?b ?st] =>
            destruct (Hd i b st) as (v' & s'' & ->)
        end.
        by eexists.
      - destruct (moves_walker call d (Work_run_callbacks chain r) chain r
                    eq_refl) as (sch & inv & k & Hk).
        eexists. apply Hk.
      - destruct (moves_walker call d (Work_lambda e r) (callbacks e) r
                    eq_refl) as (sch & inv & k & Hk).
        eexists. apply Hk. }
    destruct (Hstep (Machine [] (invoked s) (history s ++ [w]) (depth s)
                       (peak s))) as (s1 & ->).
    destruct (scheduled s1) as [| w' [| w'' l]]; eauto.
Qed.

(** X12: an exception raised by a continuation never leaves [perform]: with
    a dispatcher that does not raise, [perform] does not raise, whatever
    the chain, the continuations and the length of the run. *)
Theorem continuation_exceptions_stay_inside call d fuel e s :
  (forall i box s0, exists v s1, d i box s0 = (Normal v, s1)) ->
  exists verdict s', perform call d fuel e s = (Normal verdict, s').
Proof.
  intros Hd. unfold perform, trampoline, frame.
  destruct (loop_never_raises call d Hd fuel (Work_perform e)
              (enter (enter s))) as (verdict & s1 & ->).
  by eexists _, _.
Qed.

Lemma continuation_exceptions_stay_inside_witness :
  exists verdict s',
    perform (fun _ _ => Raises (Exception "boom"))
      (fun _ box => bind (succeed box VNone) (fun _ => ret VNone)) 5
      (Effect_with (Opaque "i") [(Some 0, Some 1); (Some 2, None)]) initial
    = (Normal verdict, s').
Proof.
  apply (continuation_exceptions_stay_inside
           (fun _ _ => Raises (Exception "boom"))
           (fun _ box => bind (succeed box VNone) (fun _ => ret VNone)) 5
           (Effect_with (Opaque "i") [(Some 0, Some 1); (Some 2, None)])
           initial).
  intros i box s0. by eexists _, _.
Defined.

(** ** Chains of extensions in the store *)

Lemma extend_reads (h : gmap Store.loc Store.object) self k eff x :
  Store.read h self = Some (k, eff) ->
  exists r h',
    Store.extend self x h = Some (r, h')
    /\ (forall l o, h !! l = Some o -> h' !! l = Some o)
    /\ Store.read h' r
       = Some (Effect_class,
               Effect_with (intent_of eff)
                 (callbacks eff ++ [Store.attached x])).
Proof.
  intros Hread. unfold Store.read in Hread.
  destruct (h !! self) as [[| k' i cbs] |] eqn:Hself; try discriminate.
  destruct (h !! cbs) as [[items |] |] eqn:Hcbs; try discriminate.
  injection Hread as -> <-.
  destruct (on_allocates h self k i cbs items (fst (Store.attached x))
              (snd (Store.attached x)) Hself Hcbs)
    as (r & extended & h' & Hrun & _ & Hkeep & Hr & _ & Hext).
  exists r, h'. split.
  - rewrite <- Hrun. by destruct x.
  - split; [ exact Hkeep |]. unfold Store.read. rewrite Hr, Hext.
    simpl. by destruct (Store.attached x).
Qed.

(** X13: a run of chain extensions [e.on(..).on_error(..)...] ends in an
    Effect with the intent of [e] and the chain of [e] followed by the
    attached entries in the order of the calls; every object that existed
    before the run, [e] and the Effects in between included, is as it
    was. *)
Theorem extensions_append_in_order xs :
  forall (h : gmap Store.loc Store.object) self k eff,
    Store.read h self = Some (k, eff) ->
    exists r k' h',
      Store.extend_all self xs h = Some (r, h')
      /\ (forall l o, h !! l = Some o -> h' !! l = Some o)
      /\ Store.read h' self = Some (k, eff)
      /\ Store.read h' r
         = Some (k', Effect_with (intent_of eff)
                       (callbacks eff ++ map Store.attached xs))
      /\ (xs <> [] -> k' = Effect_class).
Proof.
  induction xs as [| x xs IH]; intros h self k eff Hread.
  - exists self, k, h. simpl. rewrite app_nil_r.
    split; [ reflexivity |]. split; [ done |]. split; [ exact Hread |].
    split; [ by destruct eff | done ].
  - destruct (extend_reads h self k eff x Hread)
      as (r1 & h1 & Hrun1 & Hkeep1 & Hread1).
    destruct (IH h1 r1 _ _ Hread1)
      as (r & k' & h' & Hrun & Hkeep & _ & Hread' & _).
    assert (Hxs : exists k'', Store.read h' r
                   = Some (k'', Effect_with (intent_of eff)
                                  (callbacks eff ++ map Store.attached (x :: xs)))
                   /\ k'' = Effect_class).
    { destruct xs as [| x' xs].
      - simpl in Hrun. injection Hrun as <- <-.
        exists Effect_class. by rewrite Hread1.
      - destruct (IH h1 r1 _ _ Hread1)
          as (r2 & k2 & h2 & Hrun2 & _ & _ & Hread2 & Hk2).
        rewrite Hrun in Hrun2. injection Hrun2 as <- <-.
        exists k2. split; [| by apply Hk2 ].
        rewrite Hread2. simpl. by rewrite <- app_assoc. }
    destruct Hxs as (k'' & Hread'' & ->).
    exists r, Effect_class, h'. split.
    + simpl. unfold Store.and_then. by rewrite Hrun1.
    + split; [ by eauto |]. split.
      * unfold Store.read in *.
        destruct (h !! self) as [[| k0 i cbs] |] eqn:Hself; try discriminate.
        destruct (h !! cbs) as [[items |] |] eqn:Hcbs; try discriminate.
        by rewrite (Hkeep _ _ (Hkeep1 _ _ Hself)),
          (Hkeep _ _ (Hkeep1 _ _ Hcbs)).
      * split; [ exact Hread'' | done ].
Qed.

Lemma extensions_append_in_order_witness :
  let h : gmap Store.loc Store.object :=
    <[2%positive := Store.Effect_object Effect_class (Opaque "i") 1%positive]>
      {[1%positive := Store.List_object [(Some 0, None)]]} in
  exists r k' h',
    Store.extend_all 2%positive
      [Store.By_on_error (Some 1); Store.By_after (Some 2)] h
    = Some (r, h')
    /\ (forall l o, h !! l = Some o -> h' !! l = Some o)
    /\ Store.read h' 2%positive
       = Some (Effect_class, Effect_with (Opaque "i") [(Some 0, None)])
    /\ Store.read h' r
       = Some (k', Effect_with (Opaque "i")
                     [(Some 0, None); (None, Some 1); (Some 2, Some 2)])
    /\ ([Store.By_on_error (Some 1); Store.By_after (Some 2)] <> []
        -> k' = Effect_class).
Proof.
  intros h.
  apply (extensions_append_in_order
           [Store.By_on_error (Some 1); Store.By_after (Some 2)] h 2%positive
           Effect_class (Effect_with (Opaque "i") [(Some 0, None)])).
  vm_compute. reflexivity.
Defined.

(** X14: [Effect.with_callbacks(intent, callbacks)] builds a new Effect
    that holds the very list it was given, not a copy: whatever that list
    contains, now or after a later change, is the new Effect's chain. The
    empty list [__init__] had made for it is dropped, and every object that
    existed before is as it was. *)
Theorem with_callbacks_keeps_the_list (h : gmap Store.loc Store.object) k i
    cbs :
  exists r h',
    Store.with_callbacks k i cbs h = Some (r, h')
    /\ h !! r = None
    /\ h' !! r = Some (Store.Effect_object k i cbs)
    /\ (forall l o, h !! l = Some o -> h' !! l = Some o)
    /\ (forall (h'' : gmap Store.loc Store.object) items,
          h'' !! r = h' !! r ->
          h'' !! cbs = Some (Store.List_object items) ->
          Store.read h'' r = Some (k, Effect_with i items)).
Proof.
  destruct (with_callbacks_some h k i cbs) as (r & h' & Hrun & Hnew & Hkeep & Hr).
  exists r, h'. split; [ exact Hrun |]. split; [ exact Hnew |].
  split; [ exact Hr |]. split; [ exact Hkeep |].
  intros h'' items Hsame Hitems. unfold Store.read.
  by rewrite Hsame, Hr, Hitems.
Qed.
